(** * ECG signal analysis (lib/ecgUtils.ts): beat detection, segmentation, statistics

    A shallow embedding of [detectRPeaks], [segmentECGData] and
    [calculateStats].  JavaScript numbers are IEEE 754 binary64 values, so a
    [number] is a primitive float; an array is a list, read with the
    JavaScript convention that an index out of range yields [undefined].

    Conventions of the embedding:
    - [undefined] only ever reaches [-] and the relational operators, where
      it behaves as NaN, so a read out of range returns NaN;
    - beat indices are natural numbers, as [detectRPeaks] produces them;
    - a [for] loop over a range of indices is a fold over that range, its
      variables the state of the fold; a loop with [break] is a recursive
      function that returns at the [break];
    - [Math.sqrt] is the correctly rounded square root and [Math.pow(x, 2)]
      is [x * x];
    - a call that spreads an array into its arguments throws beyond the
      engine's argument limit: the [_run] functions return a [completion]. *)

From Stdlib Require Import Floats ZArith Lia Bool.
From Stdlib Require Strings.String.
From stdpp Require Import base list.
Import ListNotations.

Set Warnings "-inexact-float".

(** ** JavaScript numbers and the [Math] functions the library calls *)

Module JS.

Abbreviation number := float.

(** [a[i]] for a [number[]], in a numeric position: an index out of range
    reads [undefined], which [ToNumber] turns into NaN, both under [-] and
    under the relational operators. *)
Definition get (a : list number) (i : nat) : number := default nan (a !! i).

(** [a[k]] where [k] itself was read from an array of indices: an
    [undefined] index reads [undefined]. *)
Definition get_at (a : list number) (k : option nat) : number :=
  match k with
  | Some i => get a i
  | None => nan
  end.

(** [a.length], in a numeric position.  Array lengths are below [2^32], far
    inside the range where the conversion is exact. *)
Definition of_nat (n : nat) : number :=
  PrimFloat.of_uint63 (Uint63.of_Z (Z.of_nat n)).

(** [a.reduce((a, b) => a + b, 0)] *)
Definition sum (a : list number) : number :=
  fold_left PrimFloat.add a 0%float.

Definition is_pos_zero (x : number) : bool :=
  match PrimFloat.classify x with PZero => true | _ => false end.

Definition is_neg_zero (x : number) : bool :=
  match PrimFloat.classify x with NZero => true | _ => false end.

(** [Math.max(...a)]: NaN if any argument is NaN, [-Infinity] for no
    argument, and [+0] counts as larger than [-0]. *)
Definition Math_max (a : list number) : number :=
  if existsb PrimFloat.is_nan a then nan
  else
    fold_left
      (fun highest n =>
         if is_pos_zero n && is_neg_zero highest then n
         else if (highest <? n)%float then n else highest)
      a neg_infinity.

(** [Math.min(...a)], symmetrically. *)
Definition Math_min (a : list number) : number :=
  if existsb PrimFloat.is_nan a then nan
  else
    fold_left
      (fun lowest n =>
         if is_neg_zero n && is_pos_zero lowest then n
         else if (n <? lowest)%float then n else lowest)
      a infinity.

Definition Math_abs : number -> number := PrimFloat.abs.
Definition Math_sqrt : number -> number := PrimFloat.sqrt.

(** [Math.pow(x, 2)] *)
Definition pow2 (x : number) : number := (x * x)%float.

Definition two52 : number := 4503599627370496%float.

(** [Math.round]: a value that is not finite or is integral is returned
    unchanged; [(0, 0.5)] goes to [+0] and [[-0.5, -0)] to [-0]; otherwise
    the nearest integer, a tie going toward [+Infinity].  Below [2^52] the
    sum [|n| + 2^52] is rounded to an integer by the addition itself. *)
Definition Math_round (n : number) : number :=
  if PrimFloat.is_nan n || PrimFloat.is_infinity n then n
  else
    let a := PrimFloat.abs n in
    if (two52 <=? a)%float then n
    else
      let r := (a + two52 - two52)%float in
      if (r =? a)%float then n
      else if (0 <? n)%float && (n <? 0.5)%float then 0%float
      else if (n <? 0)%float && (-0.5 <=? n)%float then (-0)%float
      else
        let fl := if (a <? r)%float then (r - 1)%float else r in
        if (0 <? n)%float
        then (if (0.5 <=? a - fl)%float then (fl + 1)%float else fl)
        else (if (a - fl <=? 0.5)%float then (- fl)%float
              else (- (fl + 1))%float).

End JS.

(** ** Data model *)

Inductive WaveSegment : Type :=
| Seg_p
| Seg_qrs
| Seg_t
| Seg_baseline.

(** A slot of a JavaScript array of labels: [None] is an empty slot, which
    an assignment past the end of the array leaves behind. *)
Abbreviation slot := (option WaveSegment).

Record ECGData : Type := mkECGData {
  time : list JS.number;
  voltage : list JS.number;
  segments : option (list slot)
}.

Record ECGStatistics : Type := mkECGStatistics {
  bpm : JS.number;
  rrIntervals : list JS.number;
  sdnn : JS.number;
  rmssd : JS.number;
  qrsDuration : JS.number;
  duration : JS.number;
  minRR : JS.number;
  maxRR : JS.number
}.

(** ** detectRPeaks *)

Definition refractoryPeriod : JS.number := 0.25%float.

(** The two variables the scanning loop updates. *)
Record peak_state : Type := mkPeakState {
  peaksIndices : list nat;
  lastPeakTime : JS.number
}.

Definition mean_of (voltage : list JS.number) : JS.number :=
  (JS.sum voltage / JS.of_nat (length voltage))%float.

Definition centered_of (voltage : list JS.number) : list JS.number :=
  let mean := mean_of voltage in
  map (fun v => (v - mean)%float) voltage.

(** [Math.max(...centered.map(Math.abs))], as the value of the call when the
    engine accepts it; [detectRPeaks_run] below says when it does. *)
Definition maxVal_of (voltage : list JS.number) : JS.number :=
  JS.Math_max (map JS.Math_abs (centered_of voltage)).

Definition threshold_of (voltage : list JS.number) : JS.number :=
  (maxVal_of voltage * 0.6)%float.

(** One iteration of [for (let i = 1; i < time.length - 1; i++)]. *)
Definition peak_step (time centered : list JS.number) (threshold : JS.number)
    (st : peak_state) (i : nat) : peak_state :=
  let current := JS.get centered i in
  let prev := JS.get centered (i - 1) in
  let next := JS.get centered (i + 1) in
  if (prev <? current)%float && (next <? current)%float then
    if (threshold <? current)%float then
      let currentTime := JS.get time i in
      if (refractoryPeriod <? currentTime - lastPeakTime st)%float then
        {| peaksIndices := peaksIndices st ++ [i];
           lastPeakTime := currentTime |}
      else st
    else st
  else st.

Definition peak_init : peak_state :=
  {| peaksIndices := []; lastPeakTime := (- refractoryPeriod)%float |}.

Definition peak_loop (time centered : list JS.number) (threshold : JS.number)
    (range : list nat) (st : peak_state) : peak_state :=
  fold_left (peak_step time centered threshold) range st.

(** The indices [detectRPeaks] returns, when it returns. *)
Definition detectRPeaks (time voltage : list JS.number) : list nat :=
  if (length time =? 0)%nat || (length voltage =? 0)%nat then []
  else
    peaksIndices
      (peak_loop time (centered_of voltage) (threshold_of voltage)
         (seq 1 (length time - 1 - 1)) peak_init).

(** The amplitude tests of one iteration of the scan: a strict local maximum
    above the threshold. *)
Definition qualifies (centered : list JS.number) (threshold : JS.number)
    (i : nat) : bool :=
  ((JS.get centered (i - 1) <? JS.get centered i)
   && (JS.get centered (i + 1) <? JS.get centered i)
   && (threshold <? JS.get centered i))%float.

(** The refractory test against the time of the last accepted beat. *)
Definition eligible (time : list JS.number) (last : JS.number) (i : nat) : bool :=
  (refractoryPeriod <? JS.get time i - last)%float.

(** [peaksIndices.push(i); lastPeakTime = currentTime] *)
Definition push_peak (time : list JS.number) (st : peak_state) (i : nat)
    : peak_state :=
  {| peaksIndices := peaksIndices st ++ [i]; lastPeakTime := JS.get time i |}.

(** Strictly increasing lists of indices. *)
Definition increasing (l : list nat) : Prop :=
  forall j k a b, (j < k)%nat -> l !! j = Some a -> l !! k = Some b -> (a < b)%nat.

(** ** segmentECGData *)

(** [segments[i] = v]: inside the array the slot is replaced; past its end
    the array grows, leaving empty slots before the new one. *)
Definition js_set (segs : list slot) (i : nat) (v : WaveSegment) : list slot :=
  if decide (i < length segs) then <[i := Some v]> segs
  else segs ++ replicate (i - length segs) None ++ [Some v].

(** Body of the backward loop after its [break] test. *)
Definition back_label (dt : JS.number) (i : nat) (segs : list slot) : list slot :=
  if (0.1 <? dt)%float && (dt <? 0.22)%float then js_set segs i Seg_p
  else if (dt <=? 0.06)%float then js_set segs i Seg_qrs
  else segs.

(** [for (let i = idx; i >= 0; i--)], entered at [i]. *)
Fixpoint scan_back (time : list JS.number) (tR : JS.number) (i : nat)
    (segs : list slot) : list slot :=
  let dt := (tR - JS.get time i)%float in
  if (0.25 <? dt)%float then segs
  else
    let segs' := back_label dt i segs in
    match i with
    | O => segs'
    | S i' => scan_back time tR i' segs'
    end.

(** Body of the forward loop after its [break] test. *)
Definition fwd_label (dt : JS.number) (i : nat) (segs : list slot) : list slot :=
  if (dt <? 0.06)%float then js_set segs i Seg_qrs
  else if (0.12 <? dt)%float && (dt <? 0.42)%float then js_set segs i Seg_t
  else segs.

(** [for (let i = idx + 1; i < data.time.length; i++)], entered at [i] with
    [todo = data.time.length - i] iterations left before the bound. *)
Fixpoint scan_fwd (time : list JS.number) (tR : JS.number) (todo i : nat)
    (segs : list slot) : list slot :=
  match todo with
  | O => segs
  | S todo' =>
      let dt := (JS.get time i - tR)%float in
      if (0.45 <? dt)%float then segs
      else scan_fwd time tR todo' (S i) (fwd_label dt i segs)
  end.

(** The callback of [rPeakIndices.forEach]. *)
Definition segment_beat (time : list JS.number) (segs : list slot) (idx : nat)
    : list slot :=
  let tR := JS.get time idx in
  let segs1 := scan_back time tR idx segs in
  scan_fwd time tR (length time - (idx + 1)) (idx + 1) segs1.

(** [[...(data.segments || new Array(data.time.length).fill('baseline'))]] *)
Definition initial_segments (data : ECGData) : list slot :=
  match segments data with
  | Some s => s
  | None => replicate (length (time data)) (Some Seg_baseline)
  end.

Definition segment_labels (data : ECGData) (rPeakIndices : list nat) : list slot :=
  fold_left (segment_beat (time data)) rPeakIndices (initial_segments data).

Definition segmentECGData (data : ECGData) (rPeakIndices : list nat) : ECGData :=
  {| time := time data;
     voltage := voltage data;
     segments := Some (segment_labels data rPeakIndices) |}.

(** ** calculateStats *)

(** [for (let i = 1; i < rPeakIndices.length; i++) rrIntervals.push(...)] *)
Definition rr_step (rPeakIndices : list nat) (time : list JS.number)
    (rr : list JS.number) (i : nat) : list JS.number :=
  let diff := (JS.get_at time (rPeakIndices !! i)
               - JS.get_at time (rPeakIndices !! (i - 1)%nat))%float in
  rr ++ [diff].

Definition rr_loop (rPeakIndices : list nat) (time : list JS.number)
    : list JS.number :=
  fold_left (rr_step rPeakIndices time) (seq 1 (length rPeakIndices - 1)) [].

(** [for (let i = 1; i < rrIntervals.length; i++) sumSquaredDiffs += ...] *)
Definition ssd_step (rr : list JS.number) (acc : JS.number) (i : nat)
    : JS.number :=
  (acc + JS.pow2 ((JS.get rr i - JS.get rr (i - 1)%nat) * 1000))%float.

Definition ssd_loop (rr : list JS.number) : JS.number :=
  fold_left (ssd_step rr) (seq 1 (length rr - 1)) 0%float.

(** The record [calculateStats] returns, when it returns. *)
Definition calculateStats (rPeakIndices : list nat) (time : list JS.number)
    : ECGStatistics :=
  let duration :=
    if (0 <? length time)%nat
    then (JS.get time (length time - 1) - JS.get time 0)%float
    else 0%float in
  if (length rPeakIndices <? 2)%nat then
    {| bpm := 0%float; rrIntervals := []; sdnn := 0%float; rmssd := 0%float;
       qrsDuration := 80%float; duration := duration;
       minRR := 0%float; maxRR := 0%float |}
  else
    let rrIntervals := rr_loop rPeakIndices time in
    let bpm := (60 / (JS.sum rrIntervals / JS.of_nat (length rrIntervals)))%float in
    let meanRR := (JS.sum rrIntervals / JS.of_nat (length rrIntervals))%float in
    let squaredDiffs := map (fun rr => JS.pow2 (rr - meanRR)%float) rrIntervals in
    let sdnn :=
      (JS.Math_sqrt (JS.sum squaredDiffs / JS.of_nat (length squaredDiffs))
       * 1000)%float in
    let sumSquaredDiffs := ssd_loop rrIntervals in
    let rmssd :=
      JS.Math_sqrt
        (sumSquaredDiffs / (JS.of_nat (length rrIntervals) - 1))%float in
    {| bpm := JS.Math_round bpm;
       rrIntervals := rrIntervals;
       sdnn := JS.Math_round sdnn;
       rmssd := JS.Math_round rmssd;
       qrsDuration := 90%float;
       duration := duration;
       minRR := JS.Math_min rrIntervals;
       maxRR := JS.Math_max rrIntervals |}.

(** ** Auxiliary predicates *)

Definition SF_is_nan (f : spec_float) : bool :=
  match f with S754_nan => true | _ => false end.

Definition SF_is_zero (f : spec_float) : bool :=
  match f with S754_zero _ => true | _ => false end.

(** A completely flat signal: [voltage.every(v => v === voltage[0])]. *)
Definition flat (voltage : list JS.number) : bool :=
  match voltage with
  | [] => true
  | v0 :: _ => forallb (fun v => (v0 =? v)%float) voltage
  end.

(** Inputs used to run the detector. *)
Definition c10_time : list JS.number := [0; 0.3; 0.6; 0.9; 1.2]%float.
Definition c10_voltage : list JS.number := [0; 1; 0; 1; 0]%float.

(** A recording whose time stamps are not positive, with one peak. *)
Definition early_time : list JS.number := [-2; -1; 0]%float.
Definition early_voltage : list JS.number := [0; 1; 0]%float.

(** [n] samples at [fs] Hz, as the synthetic generator stamps them, all at
    zero volts. *)
Definition sampled_time (fs : JS.number) (n : nat) : list JS.number :=
  map (fun i => (JS.of_nat i / fs)%float) (seq 0 n).
Definition zero_voltage (n : nat) : list JS.number := replicate n 0%float.

(** ** The statistics as the specification words them *)

(** [time[last] - time[first]], and [0] for an empty time array. *)
Definition duration_spec (time : list JS.number) : JS.number :=
  match time with
  | [] => 0%float
  | first :: _ => (default nan (last time) - first)%float
  end.

(** The record returned when there are too few beats. *)
Definition degenerate_stats (time : list JS.number) : ECGStatistics :=
  {| bpm := 0%float; rrIntervals := []; sdnn := 0%float; rmssd := 0%float;
     qrsDuration := 80%float; duration := duration_spec time;
     minRR := 0%float; maxRR := 0%float |}.

(** [rrIntervals[k] = time[beatIndices[k+1]] - time[beatIndices[k]]] for the
    consecutive beat pairs [k = 0 .. len - 2]. *)
Definition rr_spec (beatIndices : list nat) (time : list JS.number)
    : list JS.number :=
  map (fun k => (JS.get_at time (beatIndices !! (k + 1)%nat)
                 - JS.get_at time (beatIndices !! k))%float)
      (seq 0 (length beatIndices - 1)).

Definition mean_spec (xs : list JS.number) : JS.number :=
  (JS.sum xs / JS.of_nat (length xs))%float.

(** Population standard deviation: the root of the mean squared deviation,
    the sum divided by [N]. *)
Definition stddev_population (xs : list JS.number) : JS.number :=
  let m := mean_spec xs in
  PrimFloat.sqrt
    (JS.sum (map (fun x => ((x - m) * (x - m))%float) xs)
     / JS.of_nat (length xs))%float.

(** ** The segmentation as the specification words it *)

(** The [segments] field is absent, or parallel to [time]. *)
Definition parallel_segments (data : ECGData) : Prop :=
  match segments data with
  | None => True
  | Some s => length s = length (time data)
  end.

(** Every time stamp is a finite number. *)
Definition finite_times (time : list JS.number) : bool :=
  forallb PrimFloat.is_finite time.

(** [segs[j]], read as a label: an empty slot and a slot past the end both
    read [undefined]. *)
Definition read (segs : list slot) (j : nat) : slot :=
  match segs !! j with
  | Some s => s
  | None => None
  end.

(** The longest prefix whose elements all pass the test. *)
Fixpoint take_while {A : Type} (keep : A -> bool) (l : list A) : list A :=
  match l with
  | [] => []
  | x :: l' => if keep x then x :: take_while keep l' else []
  end.

(** Backward window, by [dt = tR - time[i]]: [0.1 < dt < 0.22] is [p],
    [dt <= 0.06] is [qrs]. *)
Definition back_window (dt : JS.number) : option WaveSegment :=
  if (0.1 <? dt)%float && (dt <? 0.22)%float then Some Seg_p
  else if (dt <=? 0.06)%float then Some Seg_qrs
  else None.

(** Forward window, by [dt = time[i] - tR]: [dt < 0.06] is [qrs],
    [0.12 < dt < 0.42] is [t]. *)
Definition fwd_window (dt : JS.number) : option WaveSegment :=
  if (dt <? 0.06)%float then Some Seg_qrs
  else if (0.12 <? dt)%float && (dt <? 0.42)%float then Some Seg_t
  else None.

(** Samples the backward scan reaches: [idx, idx - 1, ..., 0], cut at the
    first one with [tR - time[i] > 0.25]. *)
Definition back_visited (time : list JS.number) (tR : JS.number) (idx : nat)
    : list nat :=
  take_while (fun i => negb (0.25 <? tR - JS.get time i)%float)
             (rev (seq 0 (S idx))).

(** Samples the forward scan reaches: [idx + 1, idx + 2, ...], for as long as
    [time[i] - tR <= 0.45]. *)
Definition fwd_visited (time : list JS.number) (tR : JS.number) (idx : nat)
    : list nat :=
  take_while (fun i => (JS.get time i - tR <=? 0.45)%float)
             (seq (S idx) (length time - S idx)).

(** The label assignments of one beat, in scan order: backward, then
    forward. *)
Definition beat_assignments (time : list JS.number) (idx : nat)
    : list (nat * WaveSegment) :=
  let tR := JS.get time idx in
  omap (fun i => pair i <$> back_window (tR - JS.get time i)%float)
       (back_visited time tR idx)
  ++ omap (fun i => pair i <$> fwd_window (JS.get time i - tR)%float)
          (fwd_visited time tR idx).

(** The assignments of all beats, in detection order. *)
Definition assignments (time : list JS.number) (beats : list nat)
    : list (nat * WaveSegment) :=
  concat (map (beat_assignments time) beats).

Definition assign (segs : list slot) (a : nat * WaveSegment) : list slot :=
  js_set segs a.1 a.2.

(** The label of sample [j] when a later assignment overwrites an earlier
    one: that of the last assignment to [j], else the initial one. *)
Definition final_label (init : list slot) (evs : list (nat * WaveSegment))
    (j : nat) : slot :=
  match last (filter (fun a => a.1 = j) evs) with
  | Some a => Some a.2
  | None => read init j
  end.

(** Inputs used to run the segmenter. *)
Definition labelled_data : ECGData :=
  {| time := [0; 1]%float; voltage := [0; 1]%float;
     segments := Some [Some Seg_p; Some Seg_qrs] |}.

Definition empty_labels_data : ECGData :=
  {| time := [0; 1; 2]%float; voltage := [0; 1; 0]%float;
     segments := Some [] |}.

Definition demo_data : ECGData :=
  {| time := sampled_time 10 9;
     voltage := [0; 0; 0; 1; 0; 0; 0; 0; 0]%float;
     segments := None |}.

Definition SF_is_finite (f : spec_float) : bool :=
  match f with S754_zero _ | S754_finite _ _ _ => true | _ => false end.

(** A time array with a NaN stamp, scanned from its first sample. *)
Definition nan_time : list JS.number := [0; nan; 0.01]%float.

(** ** Further notions about the detector *)

(** [lastPeakTime] after the beats [accepted] have been pushed. *)
Definition last_accepted_time (time : list JS.number) (accepted : list nat)
    : JS.number :=
  match last accepted with
  | Some b => JS.get time b
  | None => (- refractoryPeriod)%float
  end.

(** ** Further notions about the segmenter *)

(** Samples the forward loop reaches: from [idx + 1], up to the first one
    with [time[i] - tR > 0.45]. *)
Definition fwd_reached (time : list JS.number) (tR : JS.number) (idx : nat)
    : list nat :=
  take_while (fun k => negb (0.45 <? JS.get time k - tR)%float)
             (seq (S idx) (length time - S idx)).

(** The assignments one beat performs, as the two loops perform them. *)
Definition beat_writes (time : list JS.number) (idx : nat)
    : list (nat * WaveSegment) :=
  let tR := JS.get time idx in
  omap (fun i => pair i <$> back_window (tR - JS.get time i)%float)
       (back_visited time tR idx)
  ++ omap (fun i => pair i <$> fwd_window (JS.get time i - tR)%float)
          (fwd_reached time tR idx).

Definition writes (time : list JS.number) (beats : list nat)
    : list (nat * WaveSegment) :=
  concat (map (beat_writes time) beats).

(** The beat indices that address a sample of the signal. *)
Definition beats_inside (time : list JS.number) (beats : list nat) : list nat :=
  List.filter (fun b => (b <? length time)%nat) beats.

(** ** getHRVStatus and getSegmentDescription *)

Module Describe.

Import Stdlib.Strings.String.
#[local] Open Scope string_scope.

Record HRVStatus : Type := mkHRVStatus {
  status : string;
  color : string
}.

Definition getHRVStatus (sdnn : JS.number) : HRVStatus :=
  if (sdnn <? 50)%float then
    {| status := "Low / Unhealthy"; color := "text-red-500" |}
  else if (sdnn <? 100)%float then
    {| status := "Moderate / Compromised"; color := "text-yellow-500" |}
  else {| status := "High / Healthy"; color := "text-green-500" |}.

Record SegmentDescription : Type := mkSegmentDescription {
  title : string;
  short : string;
  description : string
}.

Definition isoelectric : SegmentDescription :=
  {| title := "Isoelectric Line";
     short := "Resting Phase";
     description := "The baseline (isoelectric line) represents periods where there is no significant electrical activity detected, typically between cardiac cycles or segments." |}.

(** The [switch]: strict equality with each [case] in turn, [baseline]
    sharing the [default] branch. *)
Definition getSegmentDescription (segment : string) : SegmentDescription :=
  if String.eqb segment "p" then
    {| title := "P-Wave";
       short := "Atrial Depolarization";
       description := "The P-wave represents the electrical depolarization of the atria (upper chambers), which leads to atrial contraction. A normal P-wave precedes every QRS complex." |}
  else if String.eqb segment "qrs" then
    {| title := "QRS Complex";
       short := "Ventricular Depolarization";
       description := "The QRS complex corresponds to the depolarization of the ventricles (lower chambers). Because the ventricles are larger than the atria, this signal is much stronger." |}
  else if String.eqb segment "t" then
    {| title := "T-Wave";
       short := "Ventricular Repolarization";
       description := "The T-wave represents the repolarization (recovery) of the ventricles. This is a critical period where the heart muscle resets for the next beat." |}
  else if String.eqb segment "baseline" then isoelectric
  else isoelectric.

(** The string a [WaveSegment] value is at run time. *)
Definition segment_name (s : WaveSegment) : string :=
  match s with
  | Seg_p => "p"
  | Seg_qrs => "qrs"
  | Seg_t => "t"
  | Seg_baseline => "baseline"
  end.

(** The rhythm caption under the heart rate (App.tsx):
    [stats.bpm > 100 ? 'Tachycardia' : stats.bpm < 60 ? 'Bradycardia'
     : 'Normal Sinus Rhythm']. *)
Definition rhythm_caption (bpm : JS.number) : string :=
  if (100 <? bpm)%float then "Tachycardia"
  else if (bpm <? 60)%float then "Bradycardia"
  else "Normal Sinus Rhythm".

End Describe.

(** ** analyzeData (components/ECGPlot.tsx) *)

(** What one call hands to its four callbacks, in call order:
    [setBeatsIndices], [onBeatsDetected], [setData], [onStatsUpdate]. *)
Record Analysis : Type := mkAnalysis {
  an_indices : list nat;
  an_timestamps : list (option JS.number);
  an_data : ECGData;
  an_stats : ECGStatistics
}.

(** [!rawSegments || rawSegments.length === 0] *)
Definition needs_segmentation (rawSegments : option (list slot)) : bool :=
  match rawSegments with
  | None => true
  | Some s => (length s =? 0)%nat
  end.

Definition analyzeData (rawTime rawVoltage : list JS.number)
    (rawSegments : option (list slot)) : Analysis :=
  let indices := detectRPeaks rawTime rawVoltage in
  let timestamps := map (fun i => rawTime !! i) indices in
  let ecgData :=
    {| time := rawTime; voltage := rawVoltage; segments := rawSegments |} in
  let ecgData :=
    if needs_segmentation rawSegments then segmentECGData ecgData indices
    else ecgData in
  let stats := calculateStats indices rawTime in
  {| an_indices := indices; an_timestamps := timestamps;
     an_data := ecgData; an_stats := stats |}.

(** The gaps between successive entries of a list of times. *)
Definition gaps (ts : list JS.number) : list JS.number :=
  zip_with (fun a b => (b - a)%float) ts (tail ts).

(** ** generateSyntheticECG *)

Inductive ECGType : Type :=
| normal
| tachycardia
| afib
| bradycardia
| qt_prolongation.

(** The rhythm parameters the [switch] sets. *)
Record rhythm : Type := mkRhythm {
  r_bpm : JS.number;
  r_irregularity : JS.number;
  r_noiseLevel : JS.number;
  r_qtFactor : JS.number
}.

Definition rhythm_of (type : ECGType) : rhythm :=
  match type with
  | tachycardia => mkRhythm 130 0 0.01 1.0
  | bradycardia => mkRhythm 45 0 0.01 1.0
  | afib => mkRhythm 90 0.6 0.04 1.0
  | qt_prolongation => mkRhythm 60 0 0.01 1.6
  | normal => mkRhythm 60 0 0.01 1.0
  end.

Definition is_afib (type : ECGType) : bool :=
  match type with afib => true | _ => false end.

(** The arrays being filled, [nextBeatTime], and the number of calls made to
    [Math.random] so far. *)
Record gen_state : Type := mkGenState {
  g_time : list JS.number;
  g_voltage : list JS.number;
  g_segments : list WaveSegment;
  g_nextBeatTime : JS.number;
  g_calls : nat
}.

Definition gen_init : gen_state :=
  {| g_time := []; g_voltage := []; g_segments := [];
     g_nextBeatTime := 0%float; g_calls := 0 |}.

Section Generator.

(** The library functions of the run time: [Math.sin], [Math.exp], and the
    successive results of [Math.random()]. *)
Variables (Math_sin Math_exp : JS.number -> JS.number).
Variable Math_random : nat -> JS.number.

Definition fs : JS.number := 250%float.

(** [a * Math.exp(-Math.pow((phase - c) * w, 2))] *)
Definition lobe (a phase c w : JS.number) : JS.number :=
  (a * Math_exp (- JS.pow2 ((phase - c) * w)))%float.

(** The P-wave block, or the fibrillatory ripple for [afib]. *)
Definition p_block (type : ECGType) (t phase : JS.number)
    (vs : JS.number * WaveSegment) : JS.number * WaveSegment :=
  let '(v, seg) := vs in
  if negb (is_afib type) then
    if (0.1 <? phase)%float && (phase <? 0.22)%float then
      let v := (v + lobe 0.1 phase 0.16 50)%float in
      if (JS.Math_abs (phase - 0.16) <? 0.05)%float then (v, Seg_p)
      else (v, seg)
    else (v, seg)
  else ((v + Math_sin (t * 45) * 0.03)%float, seg).

(** The QRS block: the label, then the Q, R and S lobes. *)
Definition qrs_block (phase : JS.number) (vs : JS.number * WaveSegment)
    : JS.number * WaveSegment :=
  let '(v, seg) := vs in
  if (0.38 <? phase)%float && (phase <? 0.44)%float then
    let v := if (0.38 <? phase)%float && (phase <? 0.4)%float
             then (v - lobe 0.15 phase 0.39 200)%float else v in
    let v := if (0.39 <? phase)%float && (phase <? 0.41)%float
             then (v + lobe 1.2 phase 0.40 300)%float else v in
    let v := if (0.41 <? phase)%float && (phase <? 0.43)%float
             then (v - lobe 0.2 phase 0.42 200)%float else v in
    (v, Seg_qrs)
  else (v, seg).

(** The T-wave block, stretched by [qtFactor]. *)
Definition t_block (qtFactor phase : JS.number) (vs : JS.number * WaveSegment)
    : JS.number * WaveSegment :=
  let '(v, seg) := vs in
  let tWaveStart := (0.5 * qtFactor)%float in
  let tWaveEnd := (0.75 * qtFactor)%float in
  let tWaveCenter := (0.62 * qtFactor)%float in
  if (tWaveStart <? phase)%float && (phase <? tWaveEnd)%float then
    let v := (v + lobe 0.25 phase tWaveCenter (30 / qtFactor))%float in
    if (0.05 <? v)%float then (v, Seg_t) else (v, seg)
  else (v, seg).

(** [phase] of the sample at time [t], once [nextBeatTime] is up to date. *)
Definition phase_of (beatDuration nextBeatTime t : JS.number) : JS.number :=
  ((t - (nextBeatTime - beatDuration)) / beatDuration)%float.

(** The body of the sample loop at counter [i]. *)
Definition gen_step (type : ECGType) (i : nat) (st : gen_state) : gen_state :=
  let r := rhythm_of type in
  let beatDuration := (60 / r_bpm r)%float in
  let t := (JS.of_nat i / fs)%float in
  let '(nextBeatTime, calls) :=
    if (g_nextBeatTime st <=? t)%float then
      let randomVar :=
        ((Math_random (g_calls st) - 0.5) * r_irregularity r * beatDuration)%float in
      ((t + beatDuration + randomVar)%float, S (g_calls st))
    else (g_nextBeatTime st, g_calls st) in
  let phase := phase_of beatDuration nextBeatTime t in
  let vs := ((0 + Math_sin (t * 0.2) * 0.05)%float, Seg_baseline) in
  let vs := p_block type t phase vs in
  let vs := qrs_block phase vs in
  let '(v, seg) := t_block (r_qtFactor r) phase vs in
  let v := (v + (Math_random calls - 0.5) * r_noiseLevel r)%float in
  {| g_time := g_time st ++ [t];
     g_voltage := g_voltage st ++ [v];
     g_segments := g_segments st ++ [seg];
     g_nextBeatTime := nextBeatTime;
     g_calls := S calls |}.

(** [for (let i = 0; i < durationSeconds * fs; i++)], entered at [i]; [None]
    when [fuel] iterations did not reach the bound. *)
Fixpoint gen_loop (type : ECGType) (durationSeconds : JS.number)
    (fuel i : nat) (st : gen_state) : option gen_state :=
  match fuel with
  | O => None
  | S fuel' =>
      if (JS.of_nat i <? durationSeconds * fs)%float
      then gen_loop type durationSeconds fuel' (S i) (gen_step type i st)
      else Some st
  end.

Definition generateSyntheticECG (fuel : nat) (type : ECGType)
    (durationSeconds : JS.number) : option ECGData :=
  match gen_loop type durationSeconds fuel 0 gen_init with
  | Some st =>
      Some {| time := g_time st; voltage := g_voltage st;
              segments := Some (map Some (g_segments st)) |}
  | None => None
  end.

(** [loadPreset] (components/ECGPlot.tsx), after its timer fires: generate 10
    seconds and analyse them with the generator's labels. *)
Definition loadPreset (fuel : nat) (type : ECGType) : option Analysis :=
  match generateSyntheticECG fuel type 10 with
  | Some synthetic =>
      Some (analyzeData (time synthetic) (voltage synthetic)
                        (segments synthetic))
  | None => None
  end.

End Generator.

(** [phase > 0.38 && phase < 0.44] *)
Definition in_qrs_window (phase : JS.number) : bool :=
  (0.38 <? phase)%float && (phase <? 0.44)%float.

(** The loop test [i < durationSeconds * fs]. *)
Definition gen_continues (durationSeconds : JS.number) (i : nat) : bool :=
  (JS.of_nat i <? durationSeconds * fs)%float.

(** The conditions under which the P-wave block labels a sample [p]. *)
Definition in_p_window (type : ECGType) (phase : JS.number) : bool :=
  negb (is_afib type)
  && ((0.1 <? phase)%float && (phase <? 0.22)%float)
  && (JS.Math_abs (phase - 0.16) <? 0.05)%float.

(** [a] and [b] are positive finite numbers, [a] in a lower binade. *)
Definition lower_binade (a b : float) : bool :=
  match Prim2SF a, Prim2SF b with
  | S754_finite false _ ea, S754_finite false _ eb => (ea <? eb)%Z
  | _, _ => false
  end.

(** ** Calls that spread an array into arguments *)

(** [f(...a)] passes one argument per element, and an engine accepts only so
    many arguments in one call: beyond its limit the call throws a
    [RangeError] before [f] runs.  The limit depends on the engine (about
    125000 in V8), so it is a parameter, [limit], of the functions below.
    [JS.Math_max], [JS.Math_min], [maxVal_of], [detectRPeaks],
    [calculateStats] and [analyzeData] above give the value of a call that is
    accepted; the [_run] functions here say when it is. *)
Inductive completion (A : Type) : Type :=
| Returns (a : A)
| Throws_RangeError.

Arguments Returns {A} a.
Arguments Throws_RangeError {A}.

(** [Math.max(...a)] *)
Definition Math_max_spread (limit : nat) (a : list JS.number)
    : completion JS.number :=
  if (length a <=? limit)%nat then Returns (JS.Math_max a)
  else Throws_RangeError.

(** [Math.min(...a)] *)
Definition Math_min_spread (limit : nat) (a : list JS.number)
    : completion JS.number :=
  if (length a <=? limit)%nat then Returns (JS.Math_min a)
  else Throws_RangeError.

(** [detectRPeaks], with its call [Math.max(...centered.map(Math.abs))]. *)
Definition detectRPeaks_run (limit : nat) (time voltage : list JS.number)
    : completion (list nat) :=
  if (length time =? 0)%nat || (length voltage =? 0)%nat then Returns []
  else
    let centered := centered_of voltage in
    match Math_max_spread limit (map JS.Math_abs centered) with
    | Throws_RangeError => Throws_RangeError
    | Returns maxVal =>
        let threshold := (maxVal * 0.6)%float in
        Returns
          (peaksIndices
             (peak_loop time centered threshold
                (seq 1 (length time - 1 - 1)) peak_init))
    end.

(** [calculateStats], with its calls [Math.min(...rrIntervals)] and
    [Math.max(...rrIntervals)], evaluated in this order while the returned
    object is built. *)
Definition calculateStats_run (limit : nat) (rPeakIndices : list nat)
    (time : list JS.number) : completion ECGStatistics :=
  let duration :=
    if (0 <? length time)%nat
    then (JS.get time (length time - 1) - JS.get time 0)%float
    else 0%float in
  if (length rPeakIndices <? 2)%nat then
    Returns
      {| bpm := 0%float; rrIntervals := []; sdnn := 0%float; rmssd := 0%float;
         qrsDuration := 80%float; duration := duration;
         minRR := 0%float; maxRR := 0%float |}
  else
    let rrIntervals := rr_loop rPeakIndices time in
    let bpm := (60 / (JS.sum rrIntervals / JS.of_nat (length rrIntervals)))%float in
    let meanRR := (JS.sum rrIntervals / JS.of_nat (length rrIntervals))%float in
    let squaredDiffs := map (fun rr => JS.pow2 (rr - meanRR)%float) rrIntervals in
    let sdnn :=
      (JS.Math_sqrt (JS.sum squaredDiffs / JS.of_nat (length squaredDiffs))
       * 1000)%float in
    let sumSquaredDiffs := ssd_loop rrIntervals in
    let rmssd :=
      JS.Math_sqrt
        (sumSquaredDiffs / (JS.of_nat (length rrIntervals) - 1))%float in
    match Math_min_spread limit rrIntervals with
    | Throws_RangeError => Throws_RangeError
    | Returns minRR =>
        match Math_max_spread limit rrIntervals with
        | Throws_RangeError => Throws_RangeError
        | Returns maxRR =>
            Returns
              {| bpm := JS.Math_round bpm;
                 rrIntervals := rrIntervals;
                 sdnn := JS.Math_round sdnn;
                 rmssd := JS.Math_round rmssd;
                 qrsDuration := 90%float;
                 duration := duration;
                 minRR := minRR;
                 maxRR := maxRR |}
        end
    end.

(** How a call of [analyzeData] ends: [detectRPeaks] threw and no callback
    was called; or [calculateStats] threw after [setBeatsIndices],
    [onBeatsDetected] and [setData] had been called; or all four callbacks
    were called. *)
Inductive analysis_outcome : Type :=
| Threw_before_reporting
| Threw_before_stats (indices : list nat) (timestamps : list (option JS.number))
    (data : ECGData)
| Reported (a : Analysis).

Definition analyzeData_run (limit : nat) (rawTime rawVoltage : list JS.number)
    (rawSegments : option (list slot)) : analysis_outcome :=
  match detectRPeaks_run limit rawTime rawVoltage with
  | Throws_RangeError => Threw_before_reporting
  | Returns indices =>
      let timestamps := map (fun i => rawTime !! i) indices in
      let ecgData :=
        {| time := rawTime; voltage := rawVoltage; segments := rawSegments |} in
      let ecgData :=
        if needs_segmentation rawSegments then segmentECGData ecgData indices
        else ecgData in
      match calculateStats_run limit indices rawTime with
      | Throws_RangeError => Threw_before_stats indices timestamps ecgData
      | Returns stats =>
          Reported {| an_indices := indices; an_timestamps := timestamps;
                      an_data := ecgData; an_stats := stats |}
      end
  end.

(** A long recording, flat at zero volts, and an argument limit of the size
    V8 has. *)
Definition long_flat_samples : nat := 200 * 1000.
Definition engine_limit : nat := 125 * 1000.

(** * Sanity checks of the embedding on concrete inputs *)

Example round_half : JS.Math_round 2.5%float = 3%float.
Proof. reflexivity. Qed.
Example round_neg_half : JS.Math_round (-2.5)%float = (-2)%float.
Proof. reflexivity. Qed.
Example round_below_half : JS.Math_round 0.49999999999999994%float = 0%float.
Proof. reflexivity. Qed.
Example round_small_neg :
  PrimFloat.classify (JS.Math_round (-0.2)%float) = NZero.
Proof. reflexivity. Qed.
Example round_nan : JS.Math_round nan = nan.
Proof. reflexivity. Qed.
Example round_1234_5 : JS.Math_round 1234.5%float = 1235%float.
Proof. reflexivity. Qed.
Example round_neg_1234_6 : JS.Math_round (-1234.6)%float = (-1235)%float.
Proof. reflexivity. Qed.

Example detect_demo :
  detectRPeaks [0; 0.1; 0.2; 0.3; 0.4; 0.5; 0.6; 0.7; 0.8]%float
               [0; 1; 0; 0.9; 0; 0; 1; 0; 0]%float = [1; 6]%nat.
Proof. vm_compute. reflexivity. Qed.

Example segment_demo :
  segment_labels
    (mkECGData [0; 0.1; 0.2; 0.3; 0.4; 0.5; 0.6; 0.7; 0.8]%float
               [0; 0; 0; 1; 0; 0; 0; 0; 0]%float None) [3%nat]
  = [Some Seg_baseline; Some Seg_p; Some Seg_baseline; Some Seg_qrs;
     Some Seg_baseline; Some Seg_t; Some Seg_t; Some Seg_t; Some Seg_baseline].
Proof. vm_compute. reflexivity. Qed.

Example stats_demo :
  let s := calculateStats [1; 6; 12]%nat
             [0; 0.1; 0.2; 0.3; 0.4; 0.5; 0.6; 0.7; 0.8; 0.9; 1; 1.1; 1.2]%float in
  (bpm s, sdnn s, rmssd s, qrsDuration s) = (109, 50, 100, 90)%float.
Proof. vm_compute. reflexivity. Qed.

(** * Facts about binary64 arithmetic used below *)

Section FloatFacts.

Local Open Scope float_scope.

Lemma SFcompare_refl_not_Lt (f : spec_float) : SFcompare f f <> Some Lt.
Proof.
  destruct f as [s | s | | s m e]; simpl; try (destruct s; discriminate).
  - discriminate.
  - destruct s; rewrite Z.compare_refl, Pos.compare_cont_refl; discriminate.
Qed.

(** [x > x] is false for every number, NaN included. *)
Lemma ltb_irrefl (x : float) : (x <? x) = false.
Proof.
  rewrite ltb_spec. unfold SFltb.
  pose proof (SFcompare_refl_not_Lt (Prim2SF x)) as H.
  destruct (SFcompare (Prim2SF x) (Prim2SF x)) as [[]|]; congruence.
Qed.

Lemma SFmul_comm (prec emax : Z) (x y : spec_float) :
  SFmul prec emax x y = SFmul prec emax y x.
Proof.
  destruct x as [sx | sx | | sx mx ex], y as [sy | sy | | sy my ey];
    simpl; try reflexivity; try (now rewrite xorb_comm).
  now rewrite xorb_comm, Pos.mul_comm, Z.add_comm.
Qed.

(** Multiplication of numbers is commutative. *)
Lemma mul_comm (x y : float) : x * y = y * x.
Proof.
  apply Prim2SF_inj. rewrite !mul_spec. apply SFmul_comm.
Qed.

Lemma is_nan_spec (x : float) : is_nan x = SF_is_nan (Prim2SF x).
Proof.
  unfold is_nan. rewrite FloatAxioms.eqb_spec. unfold SFeqb.
  pose proof (SFcompare_refl_not_Lt (Prim2SF x)) as H.
  destruct (Prim2SF x) as [s | s | | s m e]; simpl in *; try reflexivity.
  - now destruct s.
  - destruct s; rewrite Z.compare_refl, Pos.compare_cont_refl; reflexivity.
Qed.

Lemma sub_nan_l (x : float) : is_nan (nan - x) = true.
Proof. rewrite is_nan_spec, sub_spec. reflexivity. Qed.

Lemma sub_nan_r (x : float) : is_nan (x - nan) = true.
Proof.
  rewrite is_nan_spec, sub_spec.
  change (Prim2SF nan) with S754_nan. now destruct (Prim2SF x).
Qed.

Lemma ltb_nan_l (d c : float) : is_nan d = true -> (d <? c) = false.
Proof.
  rewrite is_nan_spec, ltb_spec. unfold SFltb.
  destruct (Prim2SF d); simpl; congruence.
Qed.

Lemma ltb_nan_r (c d : float) : is_nan d = true -> (c <? d) = false.
Proof.
  rewrite is_nan_spec, ltb_spec. unfold SFltb.
  destruct (Prim2SF d); simpl; try congruence. now destruct (Prim2SF c).
Qed.

Lemma leb_nan_l (d c : float) : is_nan d = true -> (d <=? c) = false.
Proof.
  rewrite is_nan_spec, leb_spec. unfold SFleb.
  destruct (Prim2SF d); simpl; congruence.
Qed.

(** Off NaN, [a <= b] is the negation of [a > b]. *)
Lemma leb_negb_ltb (a b : float) :
  is_nan a = false -> is_nan b = false -> (a <=? b) = negb (b <? a).
Proof.
  rewrite !is_nan_spec, leb_spec, ltb_spec. unfold SFleb, SFltb.
  destruct (Prim2SF a) as [sa | sa | | sa ma ea],
           (Prim2SF b) as [sb | sb | | sb mb eb];
    simpl; try discriminate; intros _ _;
    try (destruct sa; reflexivity); try (destruct sb; reflexivity);
    try (destruct sa, sb; reflexivity).
  destruct sa, sb; try reflexivity;
    rewrite (Z.compare_antisym ea eb);
    destruct (ea ?= eb)%Z; simpl; try reflexivity;
    pose proof (Pos.compare_cont_antisym ma mb Eq) as A; simpl in A;
    rewrite <- A; destruct (Pos.compare_cont Eq ma mb); reflexivity.
Qed.

End FloatFacts.

(** * The beat detector *)

Section Detector.

Local Open Scope float_scope.

Variables (time centered : list JS.number) (threshold : JS.number).

Lemma peak_step_eq (st : peak_state) (i : nat) :
  peak_step time centered threshold st i
  = if qualifies centered threshold i && eligible time (lastPeakTime st) i
    then push_peak time st i else st.
Proof.
  unfold peak_step, qualifies, eligible, push_peak.
  destruct (JS.get centered (i - 1) <? JS.get centered i);
    destruct (JS.get centered (i + 1) <? JS.get centered i);
    destruct (threshold <? JS.get centered i);
    destruct (refractoryPeriod <? JS.get time i - lastPeakTime st);
    reflexivity.
Qed.

Lemma peak_loop_cons (i : nat) (range : list nat) (st : peak_state) :
  peak_loop time centered threshold (i :: range) st
  = peak_loop time centered threshold range
      (peak_step time centered threshold st i).
Proof. reflexivity. Qed.

Lemma peak_loop_app (r1 r2 : list nat) (st : peak_state) :
  peak_loop time centered threshold (r1 ++ r2) st
  = peak_loop time centered threshold r2
      (peak_loop time centered threshold r1 st).
Proof. unfold peak_loop. apply fold_left_app. Qed.

(** Induction over the counting loop: a property of the loop variable and
    the state that every iteration carries from [i] to [i + 1]. *)
Lemma peak_loop_seq_ind (P : nat -> peak_state -> Prop) (n : nat) :
  forall (a : nat) (st : peak_state),
    P a st ->
    (forall i s, (a <= i < a + n)%nat -> P i s ->
                 P (S i) (peak_step time centered threshold s i)) ->
    P (a + n)%nat (peak_loop time centered threshold (seq a n) st).
Proof.
  induction n as [|n IH]; intros a st H0 Hstep.
  - simpl. now rewrite Nat.add_0_r.
  - cbn [seq]. rewrite peak_loop_cons.
    replace (a + S n)%nat with (S a + n)%nat by lia.
    apply IH.
    + apply Hstep; [lia | exact H0].
    + intros i s Hi. apply Hstep. lia.
Qed.

(** A stretch of the scan in which no sample passes the amplitude tests
    leaves the state as it was. *)
Lemma peak_loop_none (range : list nat) (st : peak_state) :
  (forall i, In i range -> qualifies centered threshold i = false) ->
  peak_loop time centered threshold range st = st.
Proof.
  revert st. induction range as [|i range IH]; intros st H; [reflexivity|].
  rewrite peak_loop_cons, peak_step_eq, (H i) by (now left).
  apply IH. intros j Hj. apply H. now right.
Qed.

(** The loop only appends, and only indices it visits. *)
Lemma peak_loop_appends (range : list nat) (st : peak_state) :
  exists added,
    peaksIndices (peak_loop time centered threshold range st)
    = peaksIndices st ++ added
    /\ Forall (fun i => In i range) added.
Proof.
  revert st. induction range as [|i range IH]; intros st.
  - exists []. split; [now rewrite app_nil_r | constructor].
  - rewrite peak_loop_cons. destruct (IH (peak_step time centered threshold st i))
      as (added & E & F).
    rewrite peak_step_eq in E.
    assert (F' : Forall (fun j => In j (i :: range)) added).
    { eapply Forall_impl; [exact F|]. intros j Hj. now right. }
    rewrite peak_step_eq.
    destruct (qualifies centered threshold i && eligible time (lastPeakTime st) i).
    + exists (i :: added). split.
      * rewrite E. simpl. now rewrite <- app_assoc.
      * constructor; [now left | exact F'].
    + exists added. now split.
Qed.

End Detector.

Lemma increasing_snoc (l : list nat) (x : nat) :
  increasing l -> Forall (fun a => (a < x)%nat) l -> increasing (l ++ [x]).
Proof.
  intros Hinc Hlt j k a b Hjk Ha Hb.
  assert (Hk : (k < length (l ++ [x]))%nat) by (eapply lookup_lt_Some; eauto).
  rewrite length_app in Hk. simpl in Hk.
  rewrite lookup_app_l in Ha by lia.
  destruct (decide (k < length l)%nat) as [Hkl | Hkl].
  - rewrite lookup_app_l in Hb by lia. exact (Hinc j k a b Hjk Ha Hb).
  - rewrite lookup_app_r in Hb by lia.
    replace (k - length l)%nat with 0%nat in Hb by lia. simpl in Hb.
    injection Hb as <-.
    rewrite Forall_forall in Hlt. apply Hlt.
    eapply list_elem_of_lookup_2; exact Ha.
Qed.

(** Every run of the detector is a run of the counting loop from the initial
    state; the loop variable ends at [1], or one past the last scanned
    sample. *)
Lemma detectRPeaks_inv (P : nat -> peak_state -> Prop)
    (time voltage : list JS.number) :
  P 1%nat peak_init ->
  (forall i s, (1 <= i)%nat -> (i + 2 <= length time)%nat -> P i s ->
     P (S i) (peak_step time (centered_of voltage) (threshold_of voltage) s i)) ->
  exists st n,
    detectRPeaks time voltage = peaksIndices st /\ P n st
    /\ (n = 1%nat \/ (n + 1 <= length time)%nat).
Proof.
  intros H0 Hstep. unfold detectRPeaks.
  destruct ((length time =? 0)%nat || (length voltage =? 0)%nat).
  - exists peak_init, 1%nat. auto.
  - eexists _, (1 + (length time - 1 - 1))%nat. split; [reflexivity|]. split.
    + apply peak_loop_seq_ind; [exact H0|].
      intros i s Hi. apply Hstep; lia.
    + lia.
Qed.

Lemma get_Some_lt (a : list JS.number) (i : nat) :
  PrimFloat.is_nan (JS.get a i) = false -> (i < length a)%nat.
Proof.
  unfold JS.get. destruct (a !! i) eqn:E.
  - intros _. eapply lookup_lt_Some; eauto.
  - simpl. discriminate.
Qed.

Lemma ltb_true_not_nan (x y : float) :
  (x <? y)%float = true ->
  PrimFloat.is_nan x = false /\ PrimFloat.is_nan y = false.
Proof.
  intros H. split.
  - destruct (PrimFloat.is_nan x) eqn:E; [|reflexivity].
    rewrite (ltb_nan_l x y E) in H. discriminate.
  - destruct (PrimFloat.is_nan y) eqn:E; [|reflexivity].
    rewrite (ltb_nan_r x y E) in H. discriminate.
Qed.

(** ** Claims about [detectRPeaks] *)

(** C10. With [time] and [voltage] of equal length, every index the detector
    returns lies in [[1, len(time) - 2]], so the first and the last sample
    are never reported; the reads [centered[i-1]], [centered[i+1]] and
    [time[i]] at a returned index are inside the arrays; and the returned
    list is strictly increasing. *)
Theorem detectRPeaks_indices_in_range (time voltage : list JS.number) :
  length time = length voltage ->
  (forall i, In i (detectRPeaks time voltage) ->
     (1 <= i)%nat /\ (i + 2 <= length time)%nat
     /\ (i - 1 < length (centered_of voltage))%nat
     /\ (i + 1 < length (centered_of voltage))%nat
     /\ is_Some (time !! i))
  /\ increasing (detectRPeaks time voltage).
Proof.
  intros Hlen.
  destruct (detectRPeaks_inv
    (fun n st => increasing (peaksIndices st)
                 /\ Forall (fun j => (1 <= j < n)%nat) (peaksIndices st))
    time voltage) as (st & n & E & [Hinc Hall] & Hn).
  - split; [|constructor]. intros j k a b _ Ha. discriminate Ha.
  - intros i s Hi1 Hi2 [Hinc Hall]. rewrite peak_step_eq.
    destruct (qualifies _ _ i && eligible _ _ i); simpl.
    + split.
      * apply increasing_snoc; [exact Hinc|].
        eapply Forall_impl; [exact Hall|]. simpl. lia.
      * apply Forall_app. split.
        -- eapply Forall_impl; [exact Hall|]. simpl. lia.
        -- repeat constructor; lia.
    + split; [exact Hinc|]. eapply Forall_impl; [exact Hall|]. simpl. lia.
  - rewrite E. split; [|exact Hinc].
    intros i Hi. rewrite Forall_forall in Hall.
    apply list_elem_of_In, Hall in Hi.
    unfold centered_of. rewrite length_map, <- Hlen.
    repeat split; try lia. apply lookup_lt_is_Some. lia.
Qed.

Lemma detectRPeaks_indices_in_range_witness :
  detectRPeaks c10_time c10_voltage = [1; 3]%nat
  /\ increasing (detectRPeaks c10_time c10_voltage).
Proof.
  split; [vm_compute; reflexivity|].
  apply (detectRPeaks_indices_in_range c10_time c10_voltage). reflexivity.
Defined.

(** C3. Every index the detector returns is a strict local maximum of the
    mean-centered signal, between two existing neighbours, and its centered
    amplitude strictly exceeds [0.6 * max(|centered|)] taken over the whole
    signal. *)
Theorem detectRPeaks_local_max_above_threshold
    (time voltage : list JS.number) (i : nat) :
  In i (detectRPeaks time voltage) ->
  let centered := centered_of voltage in
  (1 <= i)%nat /\ (i + 1 < length voltage)%nat
  /\ (JS.get centered (i - 1) <? JS.get centered i)%float = true
  /\ (JS.get centered (i + 1) <? JS.get centered i)%float = true
  /\ (0.6 * JS.Math_max (map JS.Math_abs centered) <? JS.get centered i)%float
     = true.
Proof.
  intros Hi centered.
  destruct (detectRPeaks_inv
    (fun _ st => Forall (fun j => (1 <= j)%nat
        /\ qualifies centered (threshold_of voltage) j = true)
        (peaksIndices st))
    time voltage) as (st & n & E & Hall & _).
  - constructor.
  - intros j s Hj1 _ Hall. rewrite peak_step_eq.
    fold centered.
    destruct (qualifies centered _ j) eqn:Q; simpl; [|exact Hall].
    destruct (eligible _ _ j); [|exact Hall].
    apply Forall_app. split; [exact Hall|]. repeat constructor; [lia|exact Q].
  - rewrite E in Hi. rewrite Forall_forall in Hall.
    apply list_elem_of_In, Hall in Hi. destruct Hi as [H1 Q].
    unfold qualifies in Q. apply andb_true_iff in Q as [Q Q3].
    apply andb_true_iff in Q as [Q1 Q2].
    split; [exact H1|]. split.
    + apply ltb_true_not_nan in Q2 as [Q2 _]. apply get_Some_lt in Q2.
      unfold centered, centered_of in Q2. now rewrite length_map in Q2.
    + split; [exact Q1|]. split; [exact Q2|].
      unfold threshold_of, maxVal_of in Q3. fold centered in Q3.
      now rewrite mul_comm.
Qed.

Lemma detectRPeaks_local_max_above_threshold_witness :
  In 3%nat (detectRPeaks c10_time c10_voltage)
  /\ (0.6 * JS.Math_max (map JS.Math_abs (centered_of c10_voltage))
      <? JS.get (centered_of c10_voltage) 3)%float = true.
Proof.
  assert (H : In 3%nat (detectRPeaks c10_time c10_voltage)).
  { vm_compute. right. left. reflexivity. }
  split; [exact H|].
  apply (detectRPeaks_local_max_above_threshold c10_time c10_voltage 3 H).
Defined.

(** Two numbers that are [===] are the same value, or are both zeros. *)
Lemma eqb_cases (x y : float) :
  (x =? y)%float = true ->
  x = y \/ (SF_is_zero (Prim2SF x) = true /\ SF_is_zero (Prim2SF y) = true).
Proof.
  rewrite FloatAxioms.eqb_spec. unfold SFeqb. intros H.
  destruct (Prim2SF x) as [sx | sx | | sx mx ex] eqn:Ex,
           (Prim2SF y) as [sy | sy | | sy my ey] eqn:Ey;
    simpl in H; try discriminate; try (destruct sx; discriminate);
    try (destruct sy; discriminate).
  - right. split; reflexivity.
  - left. apply Prim2SF_inj. rewrite Ex, Ey.
    destruct sx, sy; try discriminate; reflexivity.
  - left. apply Prim2SF_inj. rewrite Ex, Ey.
    destruct sx, sy; try discriminate;
      destruct (ex ?= ey)%Z eqn:Ee; try discriminate;
      apply Z.compare_eq in Ee; subst ey;
      destruct (Pos.compare_cont Eq mx my) eqn:Em; try discriminate;
      apply Pos.compare_eq in Em; subst my; reflexivity.
Qed.

Lemma SFsub_zero_l (sx sy : bool) (m : spec_float) :
  SFcompare (SF64sub (S754_zero sx) m) (SF64sub (S754_zero sy) m) <> Some Lt.
Proof.
  destruct m as [s | s | | s m e].
  - destruct sx, sy, s; discriminate.
  - destruct s; discriminate.
  - discriminate.
  - apply (SFcompare_refl_not_Lt (S754_finite (negb s) m e)).
Qed.

(** Subtracting the same mean from two equal voltages never makes the second
    result larger than the first. *)
Lemma sub_ltb_of_eqb (v0 a b m : float) :
  (v0 =? a)%float = true -> (v0 =? b)%float = true ->
  (a - m <? b - m)%float = false.
Proof.
  intros Ha Hb.
  destruct (eqb_cases _ _ Ha) as [<- | [Z0 Za]];
    destruct (eqb_cases _ _ Hb) as [<- | [Z0' Zb]];
    try apply ltb_irrefl.
  all: rewrite ltb_spec, !sub_spec; unfold SFltb.
  all: try (destruct (Prim2SF v0) as [s0| | |] eqn:E0; try discriminate).
  all: try (destruct (Prim2SF a) as [sa| | |] eqn:Ea; try discriminate).
  all: try (destruct (Prim2SF b) as [sb| | |] eqn:Eb; try discriminate).
  all: match goal with
       | |- match SFcompare (SF64sub (S754_zero ?s1) ?m)
                            (SF64sub (S754_zero ?s2) ?m) with _ => _ end = _ =>
           pose proof (SFsub_zero_l s1 s2 m) as N;
           destruct (SFcompare (SF64sub (S754_zero s1) m)
                               (SF64sub (S754_zero s2) m)) as [[]|];
           congruence
       end.
Qed.

Lemma flat_eqb_first (v0 : float) (voltage : list float) (v : float) :
  forallb (fun w => (v0 =? w)%float) voltage = true ->
  In v voltage -> (v0 =? v)%float = true.
Proof.
  rewrite forallb_forall. intros H Hv. now apply H.
Qed.

(** In a flat signal no sample is a strict local maximum. *)
Lemma flat_not_qualifies (voltage : list JS.number) (threshold : JS.number)
    (i : nat) :
  flat voltage = true -> (1 <= i)%nat ->
  qualifies (centered_of voltage) threshold i = false.
Proof.
  intros Hflat Hi. unfold qualifies.
  assert (E : (JS.get (centered_of voltage) (i - 1)
               <? JS.get (centered_of voltage) i)%float = false).
  { unfold JS.get, centered_of.
    rewrite !list_lookup_fmap.
    destruct (voltage !! i) as [b|] eqn:Eb; simpl;
      [| now apply ltb_nan_r].
    destruct (voltage !! (i - 1)%nat) as [a|] eqn:Ea; simpl;
      [| now apply ltb_nan_l].
    destruct voltage as [|v0 rest]; [discriminate|].
    unfold flat in Hflat.
    apply (sub_ltb_of_eqb v0).
    - eapply flat_eqb_first; [exact Hflat|].
      apply list_elem_of_In. eapply list_elem_of_lookup_2; exact Ea.
    - eapply flat_eqb_first; [exact Hflat|].
      apply list_elem_of_In. eapply list_elem_of_lookup_2; exact Eb. }
  now rewrite E.
Qed.

(** The refractory invariant of the loop state: consecutive accepted beats
    are more than the refractory period apart, and [lastPeakTime] is the
    time of the last accepted beat. *)
Lemma peak_step_refractory (time centered : list JS.number)
    (threshold : JS.number) (s : peak_state) (i : nat) :
  let P := fun st : peak_state =>
    (forall k b1 b2, peaksIndices st !! k = Some b1 ->
       peaksIndices st !! S k = Some b2 ->
       (refractoryPeriod <? JS.get time b2 - JS.get time b1)%float = true)
    /\ (forall b, last (peaksIndices st) = Some b ->
          lastPeakTime st = JS.get time b) in
  P s -> P (peak_step time centered threshold s i).
Proof.
  intros P [Hpairs Hlast]. rewrite peak_step_eq.
  destruct (qualifies centered threshold i); simpl; [|now split].
  destruct (eligible time (lastPeakTime s) i) eqn:El; [|now split].
  split; simpl.
  - intros k b1 b2 H1 H2.
    assert (Hk : (S k < length (peaksIndices s ++ [i]))%nat)
      by (eapply lookup_lt_Some; eauto).
    rewrite length_app in Hk. simpl in Hk.
    rewrite lookup_app_l in H1 by lia.
    destruct (decide (S k < length (peaksIndices s))%nat) as [Hin | Hout].
    + rewrite lookup_app_l in H2 by lia. eapply Hpairs; eauto.
    + rewrite lookup_app_r in H2 by lia.
      replace (S k - length (peaksIndices s))%nat with 0%nat in H2 by lia.
      injection H2 as <-.
      assert (L : last (peaksIndices s) = Some b1).
      { rewrite last_lookup.
        replace (Nat.pred (length (peaksIndices s))) with k by lia. exact H1. }
      rewrite <- (Hlast b1 L). exact El.
  - intros b Hb. rewrite last_snoc in Hb. now injection Hb as <-.
Qed.

(** ** C2: the refractory period *)

(** C2.  [lastPeakTime] starts at [-0.25] so that the first peak passes the
    refractory test, but the test is [time[i] - (-0.25) > 0.25], which a time
    stamp that is not positive fails: in this recording, whose stamps are
    [-2, -1, 0], the only peak passes both amplitude tests and the detector
    returns no beat. *)
Lemma first_peak_not_always_eligible :
  qualifies (centered_of early_voltage) (threshold_of early_voltage) 1 = true
  /\ detectRPeaks early_time early_voltage = [].
Proof. split; vm_compute; reflexivity. Qed.

(** Consecutive accepted beats are always more than [0.25] s apart; and the
    first sample that passes the amplitude tests is accepted, and is then the
    first beat returned, exactly when [time[i] - (-0.25) > 0.25]. *)
Theorem detectRPeaks_refractory (time voltage : list JS.number) :
  (forall k b1 b2,
     detectRPeaks time voltage !! k = Some b1 ->
     detectRPeaks time voltage !! S k = Some b2 ->
     (0.25 <? JS.get time b2 - JS.get time b1)%float = true)
  /\ (forall i,
        (1 <= i)%nat -> (i + 2 <= length time)%nat ->
        qualifies (centered_of voltage) (threshold_of voltage) i = true ->
        (forall j, (1 <= j < i)%nat ->
           qualifies (centered_of voltage) (threshold_of voltage) j = false) ->
        ((0.25 <? JS.get time i - (-0.25))%float = true ->
           head (detectRPeaks time voltage) = Some i)
        /\ ((0.25 <? JS.get time i - (-0.25))%float = false ->
              ~ In i (detectRPeaks time voltage))).
Proof.
  split.
  - destruct (detectRPeaks_inv
      (fun _ st =>
         (forall k b1 b2, peaksIndices st !! k = Some b1 ->
            peaksIndices st !! S k = Some b2 ->
            (refractoryPeriod <? JS.get time b2 - JS.get time b1)%float = true)
         /\ (forall b, last (peaksIndices st) = Some b ->
               lastPeakTime st = JS.get time b))
      time voltage) as (st & n & E & [Hpairs _] & _).
    + split; intros; discriminate.
    + intros i s _ _ H. now apply peak_step_refractory.
    + rewrite E. exact Hpairs.
  - intros i Hi1 Hi2 Hq Hbefore.
    assert (Hv : (length voltage =? 0)%nat = false).
    { apply Nat.eqb_neq. intros Hv0.
      apply length_zero_iff_nil in Hv0. subst voltage.
      unfold qualifies in Hq. cbn in Hq. discriminate. }
    assert (Ht : (length time =? 0)%nat = false) by (apply Nat.eqb_neq; lia).
    unfold detectRPeaks. rewrite Ht, Hv. simpl orb. cbv iota.
    replace (length time - 1 - 1)%nat
      with ((i - 1) + (1 + (length time - 2 - i)))%nat by lia.
    rewrite seq_app, peak_loop_app.
    rewrite (peak_loop_none _ _ _ (seq 1 (i - 1))).
    2:{ intros j Hj. apply in_seq in Hj. apply Hbefore. lia. }
    replace (1 + (i - 1))%nat with i by lia.
    cbn [seq Nat.add]. rewrite peak_loop_cons, peak_step_eq, Hq.
    change (eligible time (lastPeakTime peak_init) i)
      with (0.25 <? JS.get time i - (-0.25))%float.
    destruct (peak_loop_appends time (centered_of voltage)
                (threshold_of voltage) (seq (S i) (length time - 2 - i))
                (if true && (0.25 <? JS.get time i - (-0.25))%float
                 then push_peak time peak_init i else peak_init))
      as (added & E & Hadded).
    rewrite E. clear E.
    destruct (0.25 <? JS.get time i - (-0.25))%float; simpl; split;
      try discriminate; try reflexivity.
    intros _ Hin. rewrite Forall_forall in Hadded.
    apply list_elem_of_In, Hadded, in_seq in Hin. lia.
Qed.

Lemma detectRPeaks_refractory_witness :
  head (detectRPeaks c10_time c10_voltage) = Some 1%nat
  /\ (0.25 <? JS.get c10_time 3 - JS.get c10_time 1)%float = true.
Proof.
  pose proof (detectRPeaks_refractory c10_time c10_voltage) as [Hpairs Hfirst].
  split.
  - apply (Hfirst 1%nat); [lia | simpl; lia | vm_compute; reflexivity
                          | intros j Hj; lia | vm_compute; reflexivity].
  - apply (Hpairs 0%nat 1%nat 3%nat); vm_compute; reflexivity.
Defined.

(** * The statistics aggregator *)

Lemma get_last (a : list JS.number) :
  JS.get a (length a - 1) = default nan (last a).
Proof.
  unfold JS.get. rewrite last_lookup.
  now replace (Nat.pred (length a)) with (length a - 1)%nat by lia.
Qed.

Lemma duration_eq (beats : list nat) (time : list JS.number) :
  duration (calculateStats beats time) = duration_spec time.
Proof.
  unfold calculateStats.
  assert (E : (if (0 <? length time)%nat
               then (JS.get time (length time - 1) - JS.get time 0)%float
               else 0%float) = duration_spec time).
  { destruct time as [|first rest]; [reflexivity|].
    change (0 <? length (first :: rest))%nat with true. cbv iota.
    now rewrite get_last. }
  rewrite E. now destruct (length beats <? 2)%nat.
Qed.

(** C4. With fewer than 2 beat indices the aggregator returns exactly the
    placeholder record: zero rate, no RR interval, zero variability and
    bounds, [qrsDuration = 80], and [duration = time[last] - time[first]]
    ([0] for an empty time array).  The embedding is a total function: no
    error is raised. *)
Theorem calculateStats_degenerate (beats : list nat) (time : list JS.number) :
  (length beats < 2)%nat ->
  calculateStats beats time = degenerate_stats time.
Proof.
  intros H. pose proof (duration_eq beats time) as D.
  unfold calculateStats in *.
  apply Nat.ltb_lt in H. rewrite H in *. simpl in D.
  unfold degenerate_stats. now rewrite D.
Qed.

Lemma calculateStats_degenerate_witness :
  calculateStats [7%nat] [0; 0.5; 1.5]%float
  = {| bpm := 0%float; rrIntervals := []; sdnn := 0%float; rmssd := 0%float;
       qrsDuration := 80%float; duration := 1.5%float;
       minRR := 0%float; maxRR := 0%float |}.
Proof.
  apply (calculateStats_degenerate [7%nat] [0; 0.5; 1.5]%float). simpl. lia.
Defined.

(** C8 as worded fails: with no beat the placeholder is 80, not 90. *)
Lemma qrsDuration_not_always_90 :
  qrsDuration (calculateStats [] []) <> 90%float.
Proof.
  intros H.
  pose proof (f_equal (fun x => PrimFloat.eqb x 90%float) H) as E.
  vm_compute in E. discriminate E.
Qed.

(** C8, amended.  [qrsDuration] is a constant of the code path, never
    computed from the time values, the indices or the segmentation: 90 with
    at least two beat indices, 80 with fewer. *)
Theorem qrsDuration_placeholder (beats : list nat) (time : list JS.number) :
  qrsDuration (calculateStats beats time)
  = if (length beats <? 2)%nat then 80%float else 90%float.
Proof.
  unfold calculateStats. now destruct (length beats <? 2)%nat.
Qed.

(** C1.  With exactly two beat indices the code divides the empty sum of
    successive differences by [1 - 1]: [rmssd] is [Math.round(Math.sqrt(0 / 0))],
    NaN, for every time array and every pair of indices. *)
Theorem calculateStats_two_beats_rmssd_nan
    (time : list JS.number) (i0 i1 : nat) :
  rrIntervals (calculateStats [i0; i1] time)
    = [(JS.get time i1 - JS.get time i0)%float]
  /\ ssd_loop (rrIntervals (calculateStats [i0; i1] time)) = 0%float
  /\ rmssd (calculateStats [i0; i1] time) = nan
  /\ rmssd (calculateStats [i0; i1] time) <> 0%float.
Proof.
  assert (E : rmssd (calculateStats [i0; i1] time) = nan) by reflexivity.
  repeat split; try reflexivity.
  rewrite E. intros H.
  pose proof (f_equal PrimFloat.is_nan H) as N.
  vm_compute in N. discriminate N.
Qed.

Lemma fold_push_map {A B : Type} (f : A -> B) (l : list A) (acc : list B) :
  fold_left (fun acc x => acc ++ [f x]) l acc = acc ++ map f l.
Proof.
  revert acc. induction l as [|x l IH]; intros acc; simpl.
  - now rewrite app_nil_r.
  - rewrite IH. now rewrite <- app_assoc.
Qed.

(** The pushing loop builds the list of consecutive differences. *)
Lemma rr_loop_spec (beats : list nat) (time : list JS.number) :
  rr_loop beats time = rr_spec beats time.
Proof.
  unfold rr_loop, rr_spec, rr_step.
  rewrite (fold_push_map
    (fun i => (JS.get_at time (beats !! i)
               - JS.get_at time (beats !! (i - 1)%nat))%float)).
  simpl. rewrite <- seq_shift, map_map.
  apply map_ext. intros k.
  now replace (S k - 1)%nat with k by lia; replace (k + 1)%nat with (S k) by lia.
Qed.

(** C7. With at least 2 beat indices, [sdnn] is
    [round(1000 * stddev(rrIntervals))] for the population standard deviation
    (the squared deviations are divided by [N]), where [rrIntervals[k]] is
    [time[beatIndices[k+1]] - time[beatIndices[k]]]. *)
Theorem calculateStats_sdnn (beats : list nat) (time : list JS.number) :
  (2 <= length beats)%nat ->
  rrIntervals (calculateStats beats time) = rr_spec beats time
  /\ sdnn (calculateStats beats time)
     = JS.Math_round (1000 * stddev_population (rr_spec beats time))%float.
Proof.
  intros H. unfold calculateStats.
  assert (E : (length beats <? 2)%nat = false) by (apply Nat.ltb_ge; lia).
  rewrite E. cbn [rrIntervals sdnn]. rewrite rr_loop_spec.
  split; [reflexivity|].
  rewrite mul_comm. unfold stddev_population, mean_spec, JS.Math_sqrt, JS.pow2.
  now rewrite length_map.
Qed.

Lemma calculateStats_sdnn_witness :
  sdnn (calculateStats [1; 6; 12]%nat (sampled_time 10 13)) = 50%float.
Proof.
  pose proof (calculateStats_sdnn [1; 6; 12]%nat (sampled_time 10 13)) as H.
  destruct H as [_ H]; [simpl; lia|].
  rewrite H. vm_compute. reflexivity.
Defined.

(** * The segmenter *)

Lemma is_nan_sub_l (a x : float) :
  PrimFloat.is_nan a = true -> PrimFloat.is_nan (a - x)%float = true.
Proof.
  rewrite !is_nan_spec, sub_spec. now destruct (Prim2SF a).
Qed.

Lemma is_nan_sub_r (x a : float) :
  PrimFloat.is_nan a = true -> PrimFloat.is_nan (x - a)%float = true.
Proof.
  rewrite !is_nan_spec, sub_spec.
  destruct (Prim2SF a); try discriminate. now destruct (Prim2SF x).
Qed.

Lemma get_out_of_range (a : list JS.number) (i : nat) :
  (length a <= i)%nat -> JS.get a i = nan.
Proof.
  intros H. unfold JS.get. now rewrite lookup_ge_None_2.
Qed.

(** A difference that is NaN lies in no window. *)
Lemma back_label_nan (dt : JS.number) (i : nat) (segs : list slot) :
  PrimFloat.is_nan dt = true -> back_label dt i segs = segs.
Proof.
  intros H. unfold back_label.
  now rewrite (ltb_nan_r _ _ H), (leb_nan_l _ _ H).
Qed.

Lemma scan_back_nan (time : list JS.number) (tR : JS.number) (i : nat)
    (segs : list slot) :
  PrimFloat.is_nan tR = true -> scan_back time tR i segs = segs.
Proof.
  intros H. induction i as [|i IH]; simpl;
    rewrite (ltb_nan_r _ _ (is_nan_sub_l tR _ H)),
            (back_label_nan _ _ _ (is_nan_sub_l tR _ H)); auto.
Qed.

Section SegmenterBounds.

(** A property of label arrays of [n] slots that assignments inside the array
    preserve. *)
Variables (n : nat) (Q : list slot -> Prop).
Hypothesis Q_set :
  forall segs i v, Q segs -> (i < n)%nat -> Q (js_set segs i v).

Lemma back_label_bounds (dt : JS.number) (i : nat) (segs : list slot) :
  Q segs -> (i < n)%nat -> Q (back_label dt i segs).
Proof.
  intros HQ Hi. unfold back_label.
  destruct ((0.1 <? dt)%float && (dt <? 0.22)%float); [now apply Q_set|].
  destruct (dt <=? 0.06)%float; [now apply Q_set | exact HQ].
Qed.

Lemma fwd_label_bounds (dt : JS.number) (i : nat) (segs : list slot) :
  Q segs -> (i < n)%nat -> Q (fwd_label dt i segs).
Proof.
  intros HQ Hi. unfold fwd_label.
  destruct (dt <? 0.06)%float; [now apply Q_set|].
  destruct ((0.12 <? dt)%float && (dt <? 0.42)%float);
    [now apply Q_set | exact HQ].
Qed.

Lemma scan_back_bounds (time : list JS.number) (tR : JS.number) (i : nat) :
  forall segs, Q segs -> (i < n)%nat -> Q (scan_back time tR i segs).
Proof.
  induction i as [|i IH]; intros segs HQ Hi; simpl;
    destruct (0.25 <? tR - JS.get time _)%float; try exact HQ.
  - now apply back_label_bounds.
  - apply IH; [|lia]. now apply back_label_bounds.
Qed.

Lemma scan_fwd_bounds (time : list JS.number) (tR : JS.number) (todo : nat) :
  forall i segs, Q segs -> (i + todo <= n)%nat ->
                 Q (scan_fwd time tR todo i segs).
Proof.
  induction todo as [|todo IH]; intros i segs HQ Hi; simpl; [exact HQ|].
  destruct (0.45 <? JS.get time i - tR)%float; [exact HQ|].
  apply IH; [|lia]. apply fwd_label_bounds; [exact HQ | lia].
Qed.

(** One beat: an index outside [time] reads [undefined], every difference is
    NaN and nothing is assigned; an index inside assigns inside. *)
Lemma segment_beat_bounds (time : list JS.number) (segs : list slot)
    (idx : nat) :
  length time = n -> Q segs -> Q (segment_beat time segs idx).
Proof.
  intros Hn HQ. unfold segment_beat.
  destruct (decide (idx < n)%nat) as [Hin | Hout].
  - apply scan_fwd_bounds; [|lia]. now apply scan_back_bounds.
  - replace (length time - (idx + 1))%nat with 0%nat by lia. simpl.
    rewrite scan_back_nan; [exact HQ|].
    now rewrite get_out_of_range by lia.
Qed.

Lemma segment_fold_bounds (time : list JS.number) (beats : list nat) :
  forall segs, length time = n -> Q segs ->
               Q (fold_left (segment_beat time) beats segs).
Proof.
  induction beats as [|idx beats IH]; intros segs Hn HQ; simpl; [exact HQ|].
  apply IH; [exact Hn|]. now apply segment_beat_bounds.
Qed.

End SegmenterBounds.

Lemma js_set_length (segs : list slot) (i : nat) (v : WaveSegment) :
  (i < length segs)%nat -> length (js_set segs i v) = length segs.
Proof.
  intros H. unfold js_set. rewrite decide_True by exact H.
  apply length_insert.
Qed.

Lemma js_set_labelled (segs : list slot) (i : nat) (v : WaveSegment) :
  (i < length segs)%nat -> Forall is_Some segs -> Forall is_Some (js_set segs i v).
Proof.
  intros H F. unfold js_set. rewrite decide_True by exact H.
  apply Forall_insert; [exact F | now exists v].
Qed.

(** ** C5: one label per sample *)

(** The claim as worded fails.  Labels supplied with the input are the
    starting point, so with zero beats they are returned as they are, not
    reset to [baseline]; and a supplied array that is not parallel to [time]
    (here the empty one) is not brought to the length of [time]. *)
Lemma segmentECGData_keeps_supplied_labels :
  segments (segmentECGData labelled_data [])
    = Some [Some Seg_p; Some Seg_qrs]
  /\ segments (segmentECGData empty_labels_data []) = Some []
  /\ length (time empty_labels_data) = 3%nat.
Proof. repeat split. Qed.

(** C5, amended.  When the input's [segments] field is absent or parallel to
    [time], the returned array has exactly one slot per sample, for every
    list of beat indices; it is empty for an empty signal; with zero beats it
    is the supplied array, and all [baseline] when none was supplied; and
    with none supplied every slot holds a label. *)
Theorem segmentECGData_coverage (data : ECGData) (beats : list nat) :
  parallel_segments data ->
  exists segs,
    segments (segmentECGData data beats) = Some segs
    /\ length segs = length (time data)
    /\ (time data = [] -> segs = [])
    /\ (beats = [] -> segs = initial_segments data)
    /\ (segments data = None ->
        Forall is_Some segs
        /\ (beats = [] ->
            segs = replicate (length (time data)) (Some Seg_baseline))).
Proof.
  intros Hpar. exists (segment_labels data beats).
  assert (Hinit : length (initial_segments data) = length (time data)).
  { unfold initial_segments, parallel_segments in *.
    destruct (segments data); [exact Hpar | apply length_replicate]. }
  assert (Hlen : length (segment_labels data beats) = length (time data)).
  { unfold segment_labels.
    assert (Q_set : forall segs i v,
              length segs = length (time data) ->
              (i < length (time data))%nat ->
              length (js_set segs i v) = length (time data)).
    { intros segs i v H Hi. rewrite js_set_length; [exact H | lia]. }
    exact (segment_fold_bounds (length (time data))
             (fun segs => length segs = length (time data))
             Q_set (time data) beats _ eq_refl Hinit). }
  split; [reflexivity|]. split; [exact Hlen|]. split; [|split].
  - intros Ht. rewrite Ht in Hlen. now apply length_zero_iff_nil.
  - intros ->. reflexivity.
  - intros Hnone. split.
    + unfold segment_labels.
      assert (Q_set : forall segs i v,
                length segs = length (time data) /\ Forall is_Some segs ->
                (i < length (time data))%nat ->
                length (js_set segs i v) = length (time data)
                /\ Forall is_Some (js_set segs i v)).
      { intros segs i v [H F] Hi. split.
        - rewrite js_set_length; [exact H | lia].
        - apply js_set_labelled; [lia | exact F]. }
      assert (Q_init : length (initial_segments data) = length (time data)
                       /\ Forall is_Some (initial_segments data)).
      { split; [exact Hinit|].
        unfold initial_segments. rewrite Hnone.
        apply Forall_replicate. unfold is_Some. eauto. }
      exact (proj2 (segment_fold_bounds (length (time data))
               (fun segs => length segs = length (time data)
                            /\ Forall is_Some segs)
               Q_set (time data) beats _ eq_refl Q_init)).
    + intros ->. unfold segment_labels, initial_segments.
      now rewrite Hnone.
Qed.

Lemma segmentECGData_coverage_witness :
  exists segs,
    segments (segmentECGData demo_data [3%nat]) = Some segs
    /\ length segs = 9%nat.
Proof.
  destruct (segmentECGData_coverage demo_data [3%nat])
    as (segs & E & L & _); [exact I|].
  exists segs. split; [exact E | exact L].
Defined.

(** ** The difference of two finite numbers is a number *)

Section Rounding.

Variables prec emax : Z.

Lemma shr_1_nonneg (mrs : shr_record) :
  (0 <= shr_m mrs)%Z -> (0 <= shr_m (shr_1 mrs))%Z.
Proof.
  destruct mrs as [m r s]. simpl. intros H.
  destruct m as [|p|p]; [simpl; lia | | lia].
  destruct p; simpl; lia.
Qed.

Lemma iter_shr_1_nonneg (p : positive) :
  forall mrs, (0 <= shr_m mrs)%Z -> (0 <= shr_m (SpecFloat.iter_pos shr_1 p mrs))%Z.
Proof.
  induction p as [p IH | p IH |]; intros mrs H; simpl.
  - apply IH, IH. now apply shr_1_nonneg.
  - now apply IH, IH.
  - now apply shr_1_nonneg.
Qed.

Lemma shr_fexp_nonneg (m e : Z) (l : location) :
  (0 <= m)%Z -> (0 <= shr_m (fst (shr_fexp prec emax m e l)))%Z.
Proof.
  intros H. unfold shr_fexp, shr.
  assert (H0 : (0 <= shr_m (shr_record_of_loc m l))%Z).
  { destruct l as [|[]]; exact H. }
  destruct (fexp prec emax (Zdigits2 m + e) - e)%Z; simpl; try exact H0.
  now apply iter_shr_1_nonneg.
Qed.

Lemma round_nearest_even_nonneg (m : Z) (l : location) :
  (0 <= m)%Z -> (0 <= round_nearest_even m l)%Z.
Proof.
  intros H. destruct l as [|[]]; simpl; try lia.
  destruct (Z.even m); lia.
Qed.

Lemma binary_round_aux_not_nan (sx : bool) (mx ex : Z) (lx : location) :
  (0 <= mx)%Z -> SF_is_nan (binary_round_aux prec emax sx mx ex lx) = false.
Proof.
  intros H. unfold binary_round_aux.
  pose proof (shr_fexp_nonneg mx ex lx H) as H1.
  destruct (shr_fexp prec emax mx ex lx) as [mrs' e']. simpl in H1.
  pose proof (shr_fexp_nonneg _ e' loc_Exact
                (round_nearest_even_nonneg _ (loc_of_shr_record mrs') H1)) as H2.
  destruct (shr_fexp prec emax (round_nearest_even (shr_m mrs')
              (loc_of_shr_record mrs')) e' loc_Exact) as [mrs'' e''].
  simpl in H2.
  destruct (shr_m mrs'') as [|m|m]; [reflexivity | | lia].
  now destruct (e'' <=? emax - prec)%Z.
Qed.

Lemma binary_normalize_not_nan (m e : Z) (szero : bool) :
  SF_is_nan (binary_normalize prec emax m e szero) = false.
Proof.
  unfold binary_normalize, binary_round.
  destruct m as [|p|p]; [reflexivity | |].
  - destruct (shl_align p e _) as [mz ez].
    now apply binary_round_aux_not_nan.
  - destruct (shl_align p e _) as [mz ez].
    now apply binary_round_aux_not_nan.
Qed.

Lemma SFsub_finite_not_nan (x y : spec_float) :
  SF_is_finite x = true -> SF_is_finite y = true ->
  SF_is_nan (SFsub prec emax x y) = false.
Proof.
  destruct x as [sx | sx | | sx mx ex], y as [sy | sy | | sy my ey];
    try discriminate; intros _ _; simpl; try reflexivity.
  - now destruct sx, sy.
  - apply binary_normalize_not_nan.
Qed.

End Rounding.

Lemma is_finite_spec (x : float) :
  PrimFloat.is_finite x = true -> SF_is_finite (Prim2SF x) = true.
Proof.
  unfold PrimFloat.is_finite, PrimFloat.is_infinity.
  rewrite is_nan_spec, FloatAxioms.eqb_spec, abs_spec.
  destruct (Prim2SF x) as [s | s | | s m e]; simpl; auto.
Qed.

(** For finite [x] and [y], [x - y] may overflow but is never NaN. *)
Lemma sub_finite_not_nan (x y : float) :
  PrimFloat.is_finite x = true -> PrimFloat.is_finite y = true ->
  PrimFloat.is_nan (x - y)%float = false.
Proof.
  intros Hx Hy. rewrite is_nan_spec, sub_spec.
  apply SFsub_finite_not_nan; now apply is_finite_spec.
Qed.

(** ** The scans as lists of assignments *)

Lemma take_while_ext_in {A : Type} (f g : A -> bool) (l : list A) :
  (forall x, In x l -> f x = g x) -> take_while f l = take_while g l.
Proof.
  induction l as [|x l IH]; intros H; simpl; [reflexivity|].
  rewrite <- (H x) by (now left).
  destruct (f x); [|reflexivity]. f_equal. apply IH.
  intros y Hy. apply H. now right.
Qed.

Lemma rev_seq_S (i : nat) : rev (seq 0 (S i)) = i :: rev (seq 0 i).
Proof. now rewrite seq_S, rev_app_distr. Qed.

Lemma back_label_window (dt : JS.number) (i : nat) (segs : list slot) :
  back_label dt i segs
  = fold_left assign (option_list (pair i <$> back_window dt)) segs.
Proof.
  unfold back_label, back_window.
  destruct ((0.1 <? dt)%float && (dt <? 0.22)%float); [reflexivity|].
  now destruct (dt <=? 0.06)%float.
Qed.

Lemma fwd_label_window (dt : JS.number) (i : nat) (segs : list slot) :
  fwd_label dt i segs
  = fold_left assign (option_list (pair i <$> fwd_window dt)) segs.
Proof.
  unfold fwd_label, fwd_window.
  destruct (dt <? 0.06)%float; [reflexivity|].
  now destruct ((0.12 <? dt)%float && (dt <? 0.42)%float).
Qed.

Lemma omap_cons_option_list {A B : Type} (f : A -> option B) (x : A)
    (l : list A) :
  omap f (x :: l) = option_list (f x) ++ omap f l.
Proof. simpl. now destruct (f x). Qed.

(** The backward loop performs the assignments of the samples it reaches,
    from [i] downwards. *)
Lemma scan_back_assignments (time : list JS.number) (tR : JS.number)
    (i : nat) :
  forall segs,
    scan_back time tR i segs
    = fold_left assign
        (omap (fun k => pair k <$> back_window (tR - JS.get time k)%float)
              (back_visited time tR i))
        segs.
Proof.
  unfold back_visited.
  induction i as [|i IH]; intros segs.
  - cbn [scan_back seq rev app take_while].
    destruct (0.25 <? tR - JS.get time 0)%float; [reflexivity|].
    cbn [negb]. rewrite omap_cons_option_list, app_nil_r.
    apply back_label_window.
  - rewrite rev_seq_S. cbn [scan_back take_while].
    destruct (0.25 <? tR - JS.get time (S i))%float; [reflexivity|].
    cbn [negb]. rewrite omap_cons_option_list, fold_left_app.
    rewrite <- back_label_window. apply IH.
Qed.

(** The forward loop performs the assignments of the samples it reaches,
    up to the first one with [time[i] - tR > 0.45]. *)
Lemma scan_fwd_assignments (time : list JS.number) (tR : JS.number)
    (todo : nat) :
  forall i segs,
    scan_fwd time tR todo i segs
    = fold_left assign
        (omap (fun k => pair k <$> fwd_window (JS.get time k - tR)%float)
              (take_while (fun k => negb (0.45 <? JS.get time k - tR)%float)
                          (seq i todo)))
        segs.
Proof.
  induction todo as [|todo IH]; intros i segs; [reflexivity|].
  cbn [scan_fwd seq take_while].
  destruct (0.45 <? JS.get time i - tR)%float; [reflexivity|].
  cbn [negb]. rewrite omap_cons_option_list, fold_left_app.
  rewrite <- fwd_label_window. apply IH.
Qed.

Lemma finite_times_get (time : list JS.number) (i : nat) :
  finite_times time = true -> (i < length time)%nat ->
  PrimFloat.is_finite (JS.get time i) = true.
Proof.
  intros H Hi. unfold finite_times in H. rewrite forallb_forall in H.
  destruct (lookup_lt_is_Some_2 time i Hi) as [x Hx].
  unfold JS.get. rewrite Hx. simpl. apply H.
  apply list_elem_of_In. eapply list_elem_of_lookup_2; exact Hx.
Qed.

(** On finite time stamps, "until the difference exceeds 0.45" and "while
    the difference is at most 0.45" cut the forward scan at the same
    sample. *)
Lemma fwd_visited_until (time : list JS.number) (idx : nat) :
  finite_times time = true ->
  take_while (fun k => negb (0.45 <? JS.get time k - JS.get time idx)%float)
             (seq (S idx) (length time - S idx))
  = fwd_visited time (JS.get time idx) idx.
Proof.
  intros Hfin. unfold fwd_visited. apply take_while_ext_in.
  intros k Hk. apply in_seq in Hk.
  symmetry. apply leb_negb_ltb; [|reflexivity].
  apply sub_finite_not_nan; apply finite_times_get; auto; lia.
Qed.

Lemma segment_beat_assignments (time : list JS.number) (segs : list slot)
    (idx : nat) :
  finite_times time = true ->
  segment_beat time segs idx = fold_left assign (beat_assignments time idx) segs.
Proof.
  intros Hfin. unfold segment_beat, beat_assignments.
  rewrite fold_left_app, <- scan_back_assignments.
  replace (idx + 1)%nat with (S idx) by lia.
  rewrite scan_fwd_assignments. now rewrite fwd_visited_until.
Qed.

Lemma segment_fold_assignments (time : list JS.number) (beats : list nat) :
  finite_times time = true ->
  forall segs,
    fold_left (segment_beat time) beats segs
    = fold_left assign (assignments time beats) segs.
Proof.
  intros Hfin. unfold assignments.
  induction beats as [|idx beats IH]; intros segs; [reflexivity|].
  cbn [fold_left map concat]. rewrite fold_left_app.
  rewrite <- segment_beat_assignments by exact Hfin. apply IH.
Qed.

(** ** Later assignments overwrite earlier ones *)

Lemma read_js_set (segs : list slot) (i : nat) (v : WaveSegment) (j : nat) :
  read (js_set segs i v) j = if decide (i = j) then Some v else read segs j.
Proof.
  unfold read, js_set.
  destruct (decide (i < length segs)%nat) as [Hin | Hout].
  - destruct (decide (i = j)) as [<- | Hne].
    + now rewrite list_lookup_insert_eq.
    + now rewrite list_lookup_insert_ne.
  - destruct (decide (j < length segs)%nat) as [Hj | Hj].
    + rewrite lookup_app_l by exact Hj.
      rewrite decide_False by lia. reflexivity.
    + rewrite lookup_app_r by lia.
      rewrite (lookup_ge_None_2 segs j) by lia.
      destruct (decide (j - length segs < i - length segs)%nat) as [Hlt | Hge].
      * rewrite lookup_app_l by (rewrite length_replicate; lia).
        rewrite lookup_replicate_2 by lia.
        rewrite decide_False by lia. reflexivity.
      * rewrite lookup_app_r by (rewrite length_replicate; lia).
        rewrite length_replicate.
        destruct (decide (i = j)) as [<- | Hne].
        -- now replace (i - length segs - (i - length segs))%nat with 0%nat by lia.
        -- destruct (j - length segs - (i - length segs))%nat as [|d] eqn:E;
             [lia | reflexivity].
Qed.

Lemma fold_assign_read (evs : list (nat * WaveSegment)) (init : list slot)
    (j : nat) :
  read (fold_left assign evs init) j = final_label init evs j.
Proof.
  unfold final_label.
  induction evs as [|[i v] evs IH] using rev_ind; [reflexivity|].
  rewrite fold_left_app. cbn [fold_left]. unfold assign at 1. cbn [fst snd].
  rewrite read_js_set, filter_app, last_app.
  destruct (decide (i = j)) as [<- | Hne].
  - rewrite filter_cons_True by reflexivity. reflexivity.
  - rewrite filter_cons_False by (simpl; congruence). exact IH.
Qed.

(** ** C6: the scan order *)

(** C6. Beats are processed in detection order.  For each beat index [idx]
    with [tR = time[idx]], the backward scan runs from [idx] toward [0],
    stops once [tR - time[i] > 0.25], and labels [0.1 < tR - time[i] < 0.22]
    as [p] and [tR - time[i] <= 0.06] as [qrs]; then the forward scan runs
    from [idx + 1] while [time[i] - tR <= 0.45], and labels
    [time[i] - tR < 0.06] as [qrs] and [0.12 < time[i] - tR < 0.42] as [t].
    The returned array is the initial one after these assignments in that
    order, so each sample carries the label of the last assignment made to
    it.  Time stamps are finite numbers. *)
Theorem segmentECGData_scan_order (data : ECGData) (beats : list nat) :
  finite_times (time data) = true ->
  exists segs,
    segments (segmentECGData data beats) = Some segs
    /\ segs = fold_left assign (assignments (time data) beats)
                (initial_segments data)
    /\ forall j,
         read segs j
         = final_label (initial_segments data)
             (assignments (time data) beats) j.
Proof.
  intros Hfin. exists (segment_labels data beats).
  assert (E : segment_labels data beats
              = fold_left assign (assignments (time data) beats)
                  (initial_segments data)).
  { unfold segment_labels. now apply segment_fold_assignments. }
  split; [reflexivity|]. split; [exact E|].
  intros j. rewrite E. apply fold_assign_read.
Qed.

Lemma segmentECGData_scan_order_witness :
  exists segs,
    segments (segmentECGData demo_data [3%nat]) = Some segs
    /\ read segs 1 = Some Seg_p /\ read segs 3 = Some Seg_qrs
    /\ read segs 5 = Some Seg_t /\ read segs 8 = Some Seg_baseline.
Proof.
  destruct (segmentECGData_scan_order demo_data [3%nat])
    as (segs & E & _ & R); [vm_compute; reflexivity|].
  exists segs. split; [exact E|].
  rewrite !R. vm_compute. repeat split.
Defined.

(** Off finite time stamps the two readings of the forward bound part: a NaN
    difference is not [> 0.45], so the loop goes on past it, while it is not
    [<= 0.45] either. *)
Remark nan_stamp_is_skipped_not_a_stop :
  segment_beat nan_time (replicate 3 (Some Seg_baseline)) 0
    = [Some Seg_qrs; Some Seg_baseline; Some Seg_qrs]
  /\ fwd_visited nan_time 0 0 = [].
Proof. split; vm_compute; reflexivity. Qed.

(** * Further properties of the detector *)

Lemma ltb_leb (a b : float) : (a <? b)%float = true -> (a <=? b)%float = true.
Proof.
  rewrite ltb_spec, leb_spec. unfold SFltb, SFleb.
  now destruct (SFcompare (Prim2SF a) (Prim2SF b)) as [[]|].
Qed.

(** [a < b] and [b < a] never both hold. *)
Lemma ltb_asym (a b : float) : (a <? b)%float = true -> (b <? a)%float = false.
Proof.
  intros H. destruct (ltb_true_not_nan _ _ H) as [Na Nb].
  destruct (b <? a)%float eqn:E; [|reflexivity].
  apply ltb_leb in E. rewrite (leb_negb_ltb b a Nb Na), H in E. discriminate.
Qed.

(** What the scan guarantees of its result, in one invariant: the indices
    are strictly increasing, lie in [[1, len(time) - 2]], pass the amplitude
    tests, and consecutive ones are more than the refractory period apart. *)
Lemma detectRPeaks_facts (time voltage : list JS.number) :
  increasing (detectRPeaks time voltage)
  /\ Forall (fun j => (1 <= j)%nat /\ (j + 2 <= length time)%nat
                      /\ qualifies (centered_of voltage) (threshold_of voltage) j
                         = true)
            (detectRPeaks time voltage)
  /\ (forall k b1 b2,
        detectRPeaks time voltage !! k = Some b1 ->
        detectRPeaks time voltage !! S k = Some b2 ->
        (refractoryPeriod <? JS.get time b2 - JS.get time b1)%float = true).
Proof.
  destruct (detectRPeaks_inv
    (fun n st =>
       (increasing (peaksIndices st)
        /\ Forall (fun j => (1 <= j < n)%nat /\ (j + 2 <= length time)%nat
                     /\ qualifies (centered_of voltage) (threshold_of voltage) j
                        = true) (peaksIndices st))
       /\ ((forall k b1 b2, peaksIndices st !! k = Some b1 ->
              peaksIndices st !! S k = Some b2 ->
              (refractoryPeriod <? JS.get time b2 - JS.get time b1)%float = true)
           /\ (forall b, last (peaksIndices st) = Some b ->
                 lastPeakTime st = JS.get time b)))
    time voltage) as (st & n & E & [[Hinc Hall] [Hpairs _]] & _).
  - split; split.
    + intros j k a b _ Ha. discriminate Ha.
    + constructor.
    + intros k b1 b2 H. discriminate H.
    + intros b H. discriminate H.
  - intros i s Hi1 Hi2 [[Hinc Hall] Href]. split.
    + rewrite peak_step_eq.
      assert (Hall' : Forall (fun j => (1 <= j < S i)%nat
                        /\ (j + 2 <= length time)%nat
                        /\ qualifies (centered_of voltage)
                             (threshold_of voltage) j = true) (peaksIndices s)).
      { eapply Forall_impl; [exact Hall|]. simpl. intros j (? & ? & ?).
        repeat split; auto; lia. }
      destruct (qualifies _ _ i) eqn:Q; simpl; [|now split].
      destruct (eligible _ _ i); [|now split].
      split.
      * apply increasing_snoc; [exact Hinc|].
        eapply Forall_impl; [exact Hall|]. simpl. lia.
      * apply Forall_app. split; [exact Hall'|].
        repeat constructor; auto; lia.
    + now apply peak_step_refractory.
  - rewrite E. split; [exact Hinc|]. split; [|exact Hpairs].
    eapply Forall_impl; [exact Hall|]. simpl. intros j (? & ? & ?).
    repeat split; auto; lia.
Qed.

(** Two neighbouring samples are never both strict local maxima. *)
Lemma qualifies_not_adjacent (centered : list JS.number)
    (threshold : JS.number) (i : nat) :
  qualifies centered threshold i = true ->
  qualifies centered threshold (S i) = false.
Proof.
  unfold qualifies. intros H.
  apply andb_true_iff in H as [H _]. apply andb_true_iff in H as [_ H].
  replace (S i - 1)%nat with i by lia.
  replace (i + 1)%nat with (S i) in H by lia.
  now rewrite (ltb_asym _ _ H).
Qed.

Lemma spaced_lower_bound (l : list nat) :
  (forall k a b, l !! k = Some a -> l !! S k = Some b -> (a + 2 <= b)%nat) ->
  (forall b, l !! 0%nat = Some b -> (1 <= b)%nat) ->
  forall k b, l !! k = Some b -> (2 * k + 1 <= b)%nat.
Proof.
  intros Hgap H0. induction k as [|k IH]; intros b Hb.
  - specialize (H0 b Hb). lia.
  - destruct (lookup_lt_is_Some_2 l k) as [a Ha].
    { apply lookup_lt_Some in Hb. lia. }
    specialize (IH a Ha). specialize (Hgap k a b Ha Hb). lia.
Qed.

(** X1. Two beats are never reported on neighbouring samples: consecutive
    returned indices are at least 2 apart, so a signal of [n] samples yields
    at most [(n - 1) / 2] beats. *)
Theorem detectRPeaks_never_adjacent (time voltage : list JS.number) :
  (forall k b1 b2,
     detectRPeaks time voltage !! k = Some b1 ->
     detectRPeaks time voltage !! S k = Some b2 ->
     (b1 + 2 <= b2)%nat)
  /\ (2 * length (detectRPeaks time voltage) <= length time - 1)%nat.
Proof.
  destruct (detectRPeaks_facts time voltage) as (Hinc & Hall & _).
  rewrite Forall_forall in Hall.
  assert (Hgap : forall k b1 b2,
            detectRPeaks time voltage !! k = Some b1 ->
            detectRPeaks time voltage !! S k = Some b2 -> (b1 + 2 <= b2)%nat).
  { intros k b1 b2 H1 H2.
    assert (Hlt : (b1 < b2)%nat) by (apply (Hinc k (S k) b1 b2); auto; lia).
    destruct (decide (b2 = S b1)) as [-> | Hne]; [|lia].
    destruct (Hall b1) as (_ & _ & Q1);
      [eapply list_elem_of_lookup_2; exact H1|].
    destruct (Hall (S b1)) as (_ & _ & Q2);
      [eapply list_elem_of_lookup_2; exact H2|].
    rewrite (qualifies_not_adjacent _ _ _ Q1) in Q2. discriminate. }
  split; [exact Hgap|].
  destruct (detectRPeaks time voltage) as [|b0 rest] eqn:E using rev_ind;
    [simpl; lia|].
  clear IHrest.
  assert (Hlast : (rest ++ [b0]) !! length rest = Some b0).
  { rewrite lookup_app_r by lia. now rewrite Nat.sub_diag. }
  pose proof (spaced_lower_bound (rest ++ [b0]) Hgap) as Hlow.
  assert (H1 : (2 * length rest + 1 <= b0)%nat).
  { apply Hlow; [|exact Hlast]. intros b Hb.
    destruct (Hall b) as (? & _); [eapply list_elem_of_lookup_2; exact Hb|].
    lia. }
  destruct (Hall b0) as (_ & H2 & _);
    [eapply list_elem_of_lookup_2; exact Hlast|].
  rewrite length_app. simpl. lia.
Qed.

Lemma peak_loop_last_time (time centered : list JS.number)
    (threshold : JS.number) (range : list nat) :
  forall st,
    lastPeakTime st = last_accepted_time time (peaksIndices st) ->
    lastPeakTime (peak_loop time centered threshold range st)
    = last_accepted_time time
        (peaksIndices (peak_loop time centered threshold range st)).
Proof.
  induction range as [|i range IH]; intros st H; [exact H|].
  rewrite peak_loop_cons. apply IH. rewrite peak_step_eq.
  destruct (qualifies centered threshold i && eligible time (lastPeakTime st) i);
    [|exact H].
  unfold last_accepted_time, push_peak. simpl. now rewrite last_snoc.
Qed.

(** X2. The detector drops a sample that passes the amplitude tests only
    inside the refractory period: if such a sample [j] is not returned, the
    result splits into the beats before [j] and the beats after [j], and
    [time[j]] is not more than [0.25] after the time of the last beat before
    it (after [-0.25] when there is none). *)
Theorem detectRPeaks_drops_only_refractory
    (time voltage : list JS.number) (j : nat) :
  (1 <= j)%nat -> (j + 2 <= length time)%nat ->
  qualifies (centered_of voltage) (threshold_of voltage) j = true ->
  ~ In j (detectRPeaks time voltage) ->
  exists before after,
    detectRPeaks time voltage = before ++ after
    /\ Forall (fun b => (b < j)%nat) before
    /\ Forall (fun b => (j < b)%nat) after
    /\ (0.25 <? JS.get time j - last_accepted_time time before)%float = false.
Proof.
  intros Hj1 Hj2 Hq Hnot.
  assert (Hv : (length voltage =? 0)%nat = false).
  { apply Nat.eqb_neq. intros Hv0.
    apply length_zero_iff_nil in Hv0. subst voltage.
    unfold qualifies in Hq. cbn in Hq. discriminate. }
  assert (Ht : (length time =? 0)%nat = false) by (apply Nat.eqb_neq; lia).
  revert Hnot. unfold detectRPeaks. rewrite Ht, Hv. simpl orb. cbv iota.
  replace (length time - 1 - 1)%nat
    with ((j - 1) + (1 + (length time - 2 - j)))%nat by lia.
  rewrite seq_app, peak_loop_app.
  replace (1 + (j - 1))%nat with j by lia.
  cbn [seq Nat.add]. rewrite peak_loop_cons.
  set (st1 := peak_loop time (centered_of voltage) (threshold_of voltage)
                (seq 1 (j - 1)) peak_init).
  destruct (peak_loop_appends time (centered_of voltage) (threshold_of voltage)
              (seq 1 (j - 1)) peak_init) as (before & E1 & F1).
  fold st1 in E1. simpl in E1.
  assert (L1 : lastPeakTime st1 = last_accepted_time time (peaksIndices st1)).
  { apply peak_loop_last_time. reflexivity. }
  rewrite E1 in L1.
  rewrite peak_step_eq, Hq. cbn [andb].
  destruct (peak_loop_appends time (centered_of voltage) (threshold_of voltage)
              (seq (S j) (length time - 2 - j))
              (if eligible time (lastPeakTime st1) j
               then push_peak time st1 j else st1)) as (after & E2 & F2).
  rewrite E2. clear E2.
  destruct (eligible time (lastPeakTime st1) j) eqn:El.
  - intros Hnot. exfalso. apply Hnot. unfold push_peak. simpl.
    apply in_or_app. left. apply in_or_app. right. now left.
  - intros _. exists before, after. rewrite E1.
    split; [reflexivity|]. split; [|split].
    + eapply Forall_impl; [exact F1|]. simpl. intros b Hb.
      apply in_seq in Hb. lia.
    + eapply Forall_impl; [exact F2|]. simpl. intros b Hb.
      apply in_seq in Hb. lia.
    + rewrite <- L1. exact El.
Qed.

Lemma detectRPeaks_drops_only_refractory_witness :
  exists before after,
    detectRPeaks (sampled_time 10 9) [0; 1; 0; 0.9; 0; 0; 1; 0; 0]%float
      = before ++ after
    /\ Forall (fun b => (b < 3)%nat) before
    /\ Forall (fun b => (3 < b)%nat) after
    /\ (0.25 <? JS.get (sampled_time 10 9) 3
                 - last_accepted_time (sampled_time 10 9) before)%float = false.
Proof.
  apply (detectRPeaks_drops_only_refractory (sampled_time 10 9)
           [0; 1; 0; 0.9; 0; 0; 1; 0; 0]%float 3).
  - lia.
  - simpl. lia.
  - vm_compute. reflexivity.
  - vm_compute. intros [H | [H | []]]; discriminate H.
Defined.

(** * Further properties of the segmenter *)

Lemma segment_beat_writes (time : list JS.number) (segs : list slot)
    (idx : nat) :
  segment_beat time segs idx = fold_left assign (beat_writes time idx) segs.
Proof.
  unfold segment_beat, beat_writes, fwd_reached.
  rewrite fold_left_app, <- scan_back_assignments.
  replace (idx + 1)%nat with (S idx) by lia.
  now rewrite scan_fwd_assignments.
Qed.

Lemma segment_fold_writes (time : list JS.number) (beats : list nat) :
  forall segs,
    fold_left (segment_beat time) beats segs
    = fold_left assign (writes time beats) segs.
Proof.
  unfold writes.
  induction beats as [|idx beats IH]; intros segs; [reflexivity|].
  cbn [fold_left map concat]. rewrite fold_left_app.
  rewrite <- segment_beat_writes. apply IH.
Qed.

Lemma segment_beat_outside (time : list JS.number) (segs : list slot)
    (idx : nat) :
  (length time <= idx)%nat -> segment_beat time segs idx = segs.
Proof.
  intros H. unfold segment_beat.
  replace (length time - (idx + 1))%nat with 0%nat by lia. simpl.
  apply scan_back_nan. now rewrite get_out_of_range.
Qed.

(** X3. A beat index that addresses no sample of the signal is ignored: it
    reads an [undefined] time, no window test passes and nothing is assigned,
    so the labels are those computed from the indices inside the signal. *)
Theorem segmentECGData_ignores_outside_beats
    (data : ECGData) (beats : list nat) :
  segmentECGData data beats
  = segmentECGData data (beats_inside (time data) beats).
Proof.
  unfold segmentECGData, segment_labels, beats_inside. do 2 f_equal.
  generalize (initial_segments data).
  induction beats as [|idx beats IH]; intros segs; [reflexivity|].
  cbn [fold_left List.filter].
  destruct (idx <? length (time data))%nat eqn:E.
  - cbn [fold_left]. apply IH.
  - apply Nat.ltb_ge in E. rewrite segment_beat_outside by exact E. apply IH.
Qed.

Lemma take_while_In {A : Type} (keep : A -> bool) (l : list A) (x : A) :
  In x (take_while keep l) -> keep x = true /\ In x l.
Proof.
  induction l as [|y l IH]; simpl; [tauto|].
  destruct (keep y) eqn:E; simpl; [|tauto].
  intros [<- | H]; [auto|]. destruct (IH H). auto.
Qed.

Lemma back_window_Some (dt : JS.number) (l : WaveSegment) :
  back_window dt = Some l ->
  PrimFloat.is_nan dt = false /\ l <> Seg_baseline.
Proof.
  unfold back_window. intros H.
  destruct (PrimFloat.is_nan dt) eqn:N.
  - rewrite (ltb_nan_r _ _ N), (leb_nan_l _ _ N) in H. discriminate.
  - split; [reflexivity|].
    destruct ((0.1 <? dt)%float && (dt <? 0.22)%float);
      [|destruct (dt <=? 0.06)%float]; congruence.
Qed.

Lemma fwd_window_Some (dt : JS.number) (l : WaveSegment) :
  fwd_window dt = Some l ->
  PrimFloat.is_nan dt = false /\ l <> Seg_baseline.
Proof.
  unfold fwd_window. intros H.
  destruct (PrimFloat.is_nan dt) eqn:N.
  - rewrite (ltb_nan_l _ _ N), (ltb_nan_r _ _ N) in H. discriminate.
  - split; [reflexivity|].
    destruct (dt <? 0.06)%float;
      [|destruct ((0.12 <? dt)%float && (dt <? 0.42)%float)]; congruence.
Qed.

Lemma sub_not_nan_inside (a : list JS.number) (i j : nat) :
  PrimFloat.is_nan (JS.get a i - JS.get a j)%float = false ->
  (i < length a)%nat /\ (j < length a)%nat.
Proof.
  intros H. split; apply get_Some_lt.
  - destruct (PrimFloat.is_nan (JS.get a i)) eqn:N; [|reflexivity].
    now rewrite (is_nan_sub_l _ (JS.get a j) N) in H.
  - destruct (PrimFloat.is_nan (JS.get a j)) eqn:N; [|reflexivity].
    now rewrite (is_nan_sub_r (JS.get a i) _ N) in H.
Qed.

(** Every assignment of a beat is a window label of a sample of the signal,
    at or before the beat for the backward window, after it for the forward
    one. *)
Lemma beat_writes_In (time : list JS.number) (idx j : nat) (l : WaveSegment) :
  In (j, l) (beat_writes time idx) ->
  (idx < length time)%nat /\ (j < length time)%nat /\ l <> Seg_baseline
  /\ ((j <= idx)%nat
      /\ back_window (JS.get time idx - JS.get time j)%float = Some l
      \/ (idx < j)%nat
         /\ fwd_window (JS.get time j - JS.get time idx)%float = Some l).
Proof.
  unfold beat_writes. intros H. apply in_app_or in H as [H | H];
    apply list_elem_of_In, list_elem_of_omap in H as (k & Hk & E);
    apply list_elem_of_In in Hk;
    [destruct (back_window (JS.get time idx - JS.get time k)%float) as [l'|] eqn:W
    |destruct (fwd_window (JS.get time k - JS.get time idx)%float) as [l'|] eqn:W];
    simpl in E; try discriminate; injection E as -> ->.
  - apply take_while_In in Hk as [_ Hk]. apply in_rev, in_seq in Hk.
    destruct (back_window_Some _ _ W) as [N Hl].
    destruct (sub_not_nan_inside _ _ _ N). repeat split; auto. left. split; [lia | exact W].
  - apply take_while_In in Hk as [_ Hk]. apply in_seq in Hk.
    destruct (fwd_window_Some _ _ W) as [N Hl].
    destruct (sub_not_nan_inside _ _ _ N). repeat split; auto. right. split; [lia | exact W].
Qed.

(** X4. The segmenter only ever writes window labels: a sample of the
    result either still carries its initial label, or carries [p], [qrs] or
    [t] because it lies in the backward window of a beat at or after it, or
    in the forward window of a beat before it, the beat and the sample both
    inside the signal.  In particular no label is ever reset to
    [baseline]. *)
Theorem segmentECGData_labels_justified
    (data : ECGData) (beats : list nat) (j : nat) (l : WaveSegment) :
  read (segment_labels data beats) j = Some l ->
  read (initial_segments data) j = Some l
  \/ (l <> Seg_baseline /\ (j < length (time data))%nat
      /\ exists idx,
           In idx beats /\ (idx < length (time data))%nat
           /\ ((j <= idx)%nat
               /\ back_window (JS.get (time data) idx - JS.get (time data) j)%float
                  = Some l
               \/ (idx < j)%nat
                  /\ fwd_window (JS.get (time data) j - JS.get (time data) idx)%float
                     = Some l)).
Proof.
  unfold segment_labels. rewrite segment_fold_writes, fold_assign_read.
  unfold final_label.
  destruct (last (filter (fun a => a.1 = j) (writes (time data) beats)))
    as [[j' l']|] eqn:L; [|now left].
  simpl. intros [= ->]. right.
  apply last_Some_elem_of, list_elem_of_filter in L as [Ej Hin].
  simpl in Ej. subst j'.
  unfold writes in Hin. apply list_elem_of_In, in_concat in Hin as (ws & Hws & Hin).
  apply in_map_iff in Hws as (idx & <- & Hidx).
  destruct (beat_writes_In _ _ _ _ Hin) as (Hi & Hj & Hl & Hw).
  split; [exact Hl|]. split; [exact Hj|]. exists idx. auto.
Qed.

Lemma segmentECGData_labels_justified_witness :
  read (initial_segments demo_data) 5 = Some Seg_t
  \/ (Seg_t <> Seg_baseline /\ (5 < length (time demo_data))%nat
      /\ exists idx,
           In idx [3%nat] /\ (idx < length (time demo_data))%nat
           /\ ((5 <= idx)%nat
               /\ back_window (JS.get (time demo_data) idx
                               - JS.get (time demo_data) 5)%float = Some Seg_t
               \/ (idx < 5)%nat
                  /\ fwd_window (JS.get (time demo_data) 5
                                 - JS.get (time demo_data) idx)%float
                     = Some Seg_t)).
Proof.
  apply (segmentECGData_labels_justified demo_data [3%nat] 5 Seg_t).
  vm_compute. reflexivity.
Defined.

(** ** Detected beats keep their [qrs] label *)

Lemma read_back_label_ne (dt : JS.number) (i j : nat) (segs : list slot) :
  i <> j -> read (back_label dt i segs) j = read segs j.
Proof.
  intros H. unfold back_label.
  destruct ((0.1 <? dt)%float && (dt <? 0.22)%float);
    [|destruct (dt <=? 0.06)%float]; try reflexivity;
    rewrite read_js_set, decide_False by exact H; reflexivity.
Qed.

Lemma read_fwd_label_ne (dt : JS.number) (i j : nat) (segs : list slot) :
  i <> j -> read (fwd_label dt i segs) j = read segs j.
Proof.
  intros H. unfold fwd_label.
  destruct (dt <? 0.06)%float;
    [|destruct ((0.12 <? dt)%float && (dt <? 0.42)%float)]; try reflexivity;
    rewrite read_js_set, decide_False by exact H; reflexivity.
Qed.

(** The backward loop entered at [i] leaves the samples above [i] alone. *)
Lemma read_scan_back_above (time : list JS.number) (tR : JS.number) (j : nat) :
  forall i segs, (i < j)%nat ->
    read (scan_back time tR i segs) j = read segs j.
Proof.
  induction i as [|i IH]; intros segs Hi; simpl;
    destruct (0.25 <? tR - JS.get time _)%float; try reflexivity.
  - apply read_back_label_ne. lia.
  - rewrite IH by lia. apply read_back_label_ne. lia.
Qed.

(** It also leaves alone every sample at or below one where it stops. *)
Lemma read_scan_back_below_stop (time : list JS.number) (tR : JS.number)
    (s j : nat) :
  (0.25 <? tR - JS.get time s)%float = true -> (j <= s)%nat ->
  forall i segs, (s <= i)%nat ->
    read (scan_back time tR i segs) j = read segs j.
Proof.
  intros Hstop Hj. induction i as [|i IH]; intros segs Hi.
  - assert (s = 0)%nat by lia. subst s. simpl. now rewrite Hstop.
  - destruct (decide (s = S i)) as [-> | Hne].
    + simpl. now rewrite Hstop.
    + simpl. destruct (0.25 <? tR - JS.get time (S i))%float; [reflexivity|].
      rewrite IH by lia. apply read_back_label_ne. lia.
Qed.

(** The forward loop entered at [i] leaves the samples below [i] alone. *)
Lemma read_scan_fwd_below (time : list JS.number) (tR : JS.number) (j : nat) :
  forall todo i segs, (j < i)%nat ->
    read (scan_fwd time tR todo i segs) j = read segs j.
Proof.
  induction todo as [|todo IH]; intros i segs Hi; simpl; [reflexivity|].
  destruct (0.45 <? JS.get time i - tR)%float; [reflexivity|].
  rewrite IH by lia. apply read_fwd_label_ne. lia.
Qed.

Lemma SFsub_self_zero (prec emax : Z) (x : spec_float) :
  SF_is_finite x = true -> SF_is_zero (SFsub prec emax x x) = true.
Proof.
  destruct x as [s | s | | s m e]; try discriminate; intros _; simpl.
  - now destruct s.
  - now rewrite Z.sub_diag.
Qed.

(** A beat at a finite time is at distance zero of itself: inside the [qrs]
    window, and no reason to stop. *)
Lemma sub_self_tests (x : float) :
  PrimFloat.is_finite x = true ->
  (0.25 <? x - x)%float = false
  /\ (0.1 <? x - x)%float = false
  /\ (x - x <=? 0.06)%float = true.
Proof.
  intros H. apply is_finite_spec in H.
  pose proof (SFsub_self_zero FloatOps.prec FloatOps.emax _ H) as Z.
  rewrite !ltb_spec, leb_spec, sub_spec.
  change SF64sub with (SFsub FloatOps.prec FloatOps.emax).
  destruct (SFsub FloatOps.prec FloatOps.emax (Prim2SF x) (Prim2SF x))
    as [s | | |]; try discriminate.
  repeat split.
Qed.

Lemma read_segment_beat_self (time : list JS.number) (segs : list slot)
    (idx : nat) :
  PrimFloat.is_finite (JS.get time idx) = true ->
  read (segment_beat time segs idx) idx = Some Seg_qrs.
Proof.
  intros Hfin. destruct (sub_self_tests _ Hfin) as (T1 & T2 & T3).
  unfold segment_beat. rewrite read_scan_fwd_below by lia.
  assert (E : read (back_label (JS.get time idx - JS.get time idx) idx segs) idx
              = Some Seg_qrs).
  { unfold back_label. rewrite T2, T3. simpl.
    rewrite read_js_set, decide_True by reflexivity. reflexivity. }
  destruct idx as [|i]; simpl; rewrite T1; [exact E|].
  rewrite read_scan_back_above by lia. exact E.
Qed.

(** A later beat more than the refractory period after [prev] leaves the
    samples up to [prev] as they are. *)
Lemma read_segment_beat_earlier (time : list JS.number) (segs : list slot)
    (prev idx j : nat) :
  (0.25 <? JS.get time idx - JS.get time prev)%float = true ->
  (j <= prev)%nat -> (prev < idx)%nat ->
  read (segment_beat time segs idx) j = read segs j.
Proof.
  intros Href Hj Hp. unfold segment_beat.
  rewrite read_scan_fwd_below by lia.
  apply (read_scan_back_below_stop time _ prev j Href Hj). lia.
Qed.

Lemma increasing_prefix (l : list nat) (x : nat) :
  increasing (l ++ [x]) -> increasing l.
Proof.
  intros H j k a b Hjk Ha Hb. apply (H j k a b Hjk).
  - rewrite lookup_app_l; [exact Ha | eapply lookup_lt_Some; exact Ha].
  - rewrite lookup_app_l; [exact Hb | eapply lookup_lt_Some; exact Hb].
Qed.

(** For beats in increasing order, more than the refractory period apart and
    at finite times, every beat's own sample ends up labelled [qrs]. *)
Lemma fold_beats_qrs (time : list JS.number) (beats : list nat) :
  increasing beats ->
  (forall k b1 b2, beats !! k = Some b1 -> beats !! S k = Some b2 ->
     (0.25 <? JS.get time b2 - JS.get time b1)%float = true) ->
  (forall b, In b beats -> PrimFloat.is_finite (JS.get time b) = true) ->
  forall segs b, In b beats ->
    read (fold_left (segment_beat time) beats segs) b = Some Seg_qrs.
Proof.
  induction beats as [|idx pre IH] using rev_ind;
    intros Hinc Href Hfin segs b Hb; [destruct Hb|].
  rewrite fold_left_app. cbn [fold_left].
  apply in_app_or in Hb as [Hb | [<- | []]].
  - apply list_elem_of_In, list_elem_of_lookup in Hb as [k Hk].
    assert (Hklt : (k < length pre)%nat) by (eapply lookup_lt_Some; exact Hk).
    destruct (lookup_lt_is_Some_2 pre (length pre - 1)) as [prev Hprev];
      [lia|].
    assert (Hidx : (pre ++ [idx]) !! length pre = Some idx).
    { rewrite lookup_app_r by lia. now rewrite Nat.sub_diag. }
    assert (Hb_prev : (b <= prev)%nat).
    { destruct (decide (k = length pre - 1)%nat) as [-> | Hne].
      - rewrite Hk in Hprev. injection Hprev as ->. lia.
      - assert (b < prev)%nat; [|lia].
        apply (increasing_prefix _ _ Hinc k (length pre - 1)%nat); auto; lia. }
    assert (Hprev_idx : (prev < idx)%nat).
    { apply (Hinc (length pre - 1)%nat (length pre)); auto; [lia|].
      rewrite lookup_app_l by lia. exact Hprev. }
    rewrite (read_segment_beat_earlier time _ prev idx b); auto.
    + apply IH.
      * now apply increasing_prefix in Hinc.
      * intros k' b1 b2 H1 H2. apply (Href k').
        -- rewrite lookup_app_l; [exact H1 | eapply lookup_lt_Some; exact H1].
        -- rewrite lookup_app_l; [exact H2 | eapply lookup_lt_Some; exact H2].
      * intros b' Hb'. apply Hfin. apply in_or_app. now left.
      * apply list_elem_of_In. eapply list_elem_of_lookup_2; exact Hk.
    + apply (Href (length pre - 1)%nat).
      * rewrite lookup_app_l by lia. exact Hprev.
      * replace (S (length pre - 1)) with (length pre) by lia. exact Hidx.
  - apply read_segment_beat_self. apply Hfin. apply in_or_app. right. now left.
Qed.

(** X5. Detection followed by segmentation: when the time stamps are finite,
    the sample of every detected beat is labelled [qrs] in the result,
    whatever labels came with the input.  No later beat's backward window
    reaches an earlier beat, because the scan stops at a sample more than
    [0.25] s back and consecutive beats are further apart than that. *)
Theorem detected_beats_labelled_qrs (data : ECGData) (b : nat) :
  finite_times (time data) = true ->
  In b (detectRPeaks (time data) (voltage data)) ->
  exists segs,
    segments (segmentECGData data (detectRPeaks (time data) (voltage data)))
    = Some segs
    /\ read segs b = Some Seg_qrs.
Proof.
  intros Hfin Hb. eexists. split; [reflexivity|].
  destruct (detectRPeaks_facts (time data) (voltage data))
    as (Hinc & Hall & Href).
  unfold segment_labels. apply fold_beats_qrs; auto.
  intros b' Hb'. apply finite_times_get; [exact Hfin|].
  rewrite Forall_forall in Hall.
  apply list_elem_of_In, Hall in Hb'. lia.
Qed.

Lemma detected_beats_labelled_qrs_witness :
  exists segs,
    segments (segmentECGData demo_data
                (detectRPeaks (time demo_data) (voltage demo_data)))
    = Some segs
    /\ read segs 3 = Some Seg_qrs.
Proof.
  apply (detected_beats_labelled_qrs demo_data 3).
  - vm_compute. reflexivity.
  - vm_compute. left. reflexivity.
Defined.

(** * Further properties of the statistics *)

Lemma is_nan_eq (x : float) : PrimFloat.is_nan x = true -> x = nan.
Proof.
  rewrite is_nan_spec. intros H. apply Prim2SF_inj.
  change (Prim2SF nan) with S754_nan. now destruct (Prim2SF x).
Qed.

Lemma is_nan_add_l (a b : float) :
  PrimFloat.is_nan a = true -> PrimFloat.is_nan (a + b)%float = true.
Proof. rewrite !is_nan_spec, add_spec. now destruct (Prim2SF a). Qed.

Lemma is_nan_add_r (a b : float) :
  PrimFloat.is_nan b = true -> PrimFloat.is_nan (a + b)%float = true.
Proof.
  rewrite !is_nan_spec, add_spec.
  destruct (Prim2SF b); try discriminate. now destruct (Prim2SF a).
Qed.

Lemma is_nan_mul_l (a b : float) :
  PrimFloat.is_nan a = true -> PrimFloat.is_nan (a * b)%float = true.
Proof. rewrite !is_nan_spec, mul_spec. now destruct (Prim2SF a). Qed.

Lemma is_nan_div_l (a b : float) :
  PrimFloat.is_nan a = true -> PrimFloat.is_nan (a / b)%float = true.
Proof. rewrite !is_nan_spec, div_spec. now destruct (Prim2SF a). Qed.

Lemma is_nan_div_r (a b : float) :
  PrimFloat.is_nan b = true -> PrimFloat.is_nan (a / b)%float = true.
Proof.
  rewrite !is_nan_spec, div_spec.
  destruct (Prim2SF b); try discriminate. now destruct (Prim2SF a).
Qed.

Lemma is_nan_sqrt (a : float) :
  PrimFloat.is_nan a = true -> PrimFloat.is_nan (PrimFloat.sqrt a) = true.
Proof. rewrite !is_nan_spec, sqrt_spec. now destruct (Prim2SF a). Qed.

Lemma Math_round_nan (a : float) :
  PrimFloat.is_nan a = true -> JS.Math_round a = nan.
Proof.
  intros H. unfold JS.Math_round. rewrite H. simpl. now apply is_nan_eq.
Qed.

Lemma sum_from_nan (l : list JS.number) :
  forall acc, PrimFloat.is_nan acc = true ->
              PrimFloat.is_nan (fold_left PrimFloat.add l acc) = true.
Proof.
  induction l as [|x l IH]; intros acc H; simpl; [exact H|].
  apply IH. now apply is_nan_add_l.
Qed.

(** A sum with a NaN term is NaN. *)
Lemma sum_nan (l : list JS.number) (x : JS.number) :
  In x l -> PrimFloat.is_nan x = true -> PrimFloat.is_nan (JS.sum l) = true.
Proof.
  unfold JS.sum. generalize 0%float.
  induction l as [|y l IH]; intros acc Hin Hx; [destruct Hin|].
  simpl. destruct Hin as [-> | Hin].
  - apply sum_from_nan. now apply is_nan_add_r.
  - now apply IH.
Qed.

Lemma existsb_is_nan (l : list JS.number) (x : JS.number) :
  In x l -> PrimFloat.is_nan x = true -> existsb PrimFloat.is_nan l = true.
Proof. intros Hin Hx. apply existsb_exists. exists x. auto. Qed.

Lemma rr_spec_length (beats : list nat) (time : list JS.number) :
  length (rr_spec beats time) = (length beats - 1)%nat.
Proof. unfold rr_spec. now rewrite length_map, length_seq. Qed.

(** An index outside [time] among at least two beats makes an RR interval
    NaN. *)
Lemma rr_spec_outside (beats : list nat) (time : list JS.number) (b : nat) :
  (2 <= length beats)%nat -> In b beats -> (length time <= b)%nat ->
  exists x, In x (rr_spec beats time) /\ PrimFloat.is_nan x = true.
Proof.
  intros Hlen Hb Hout.
  apply list_elem_of_In, list_elem_of_lookup in Hb as [k Hk].
  assert (Hklt : (k < length beats)%nat) by (eapply lookup_lt_Some; exact Hk).
  assert (Hnan : PrimFloat.is_nan (JS.get_at time (beats !! k)) = true).
  { rewrite Hk. simpl. now rewrite get_out_of_range. }
  unfold rr_spec.
  destruct (decide (k < length beats - 1)%nat) as [Hlow | Hlast].
  - eexists. split.
    + apply in_map_iff. exists k. split; [reflexivity|]. apply in_seq. lia.
    + now apply is_nan_sub_r.
  - eexists. split.
    + apply in_map_iff. exists (k - 1)%nat. split; [reflexivity|].
      apply in_seq. lia.
    + replace (k - 1 + 1)%nat with k by lia. now apply is_nan_sub_l.
Qed.

(** X6. No exception for a beat index outside the time array: with at least
    two beat indices, one of them outside, the rate, SDNN and both RR bounds
    come out as NaN. *)
Theorem calculateStats_outside_index_nan
    (beats : list nat) (time : list JS.number) (b : nat) :
  (2 <= length beats)%nat -> In b beats -> (length time <= b)%nat ->
  bpm (calculateStats beats time) = nan
  /\ sdnn (calculateStats beats time) = nan
  /\ minRR (calculateStats beats time) = nan
  /\ maxRR (calculateStats beats time) = nan.
Proof.
  intros Hlen Hb Hout.
  destruct (rr_spec_outside beats time b Hlen Hb Hout) as (x & Hx & Nx).
  unfold calculateStats.
  assert (E : (length beats <? 2)%nat = false) by (apply Nat.ltb_ge; lia).
  rewrite E. cbn [bpm sdnn minRR maxRR]. rewrite rr_loop_spec.
  pose proof (sum_nan _ _ Hx Nx) as Ns.
  repeat split.
  - apply Math_round_nan. apply is_nan_div_r. now apply is_nan_div_l.
  - apply Math_round_nan. apply is_nan_mul_l. apply is_nan_sqrt.
    apply is_nan_div_l.
    apply (sum_nan _ (JS.pow2 (x - JS.sum (rr_spec beats time)
                                   / JS.of_nat (length (rr_spec beats time))))).
    + apply in_map_iff. exists x. auto.
    + unfold JS.pow2. apply is_nan_mul_l. now apply is_nan_sub_l.
  - unfold JS.Math_min. now rewrite (existsb_is_nan _ _ Hx Nx).
  - unfold JS.Math_max. now rewrite (existsb_is_nan _ _ Hx Nx).
Qed.

Lemma calculateStats_outside_index_nan_witness :
  bpm (calculateStats [1; 9]%nat [0; 0.5; 1]%float) = nan
  /\ sdnn (calculateStats [1; 9]%nat [0; 0.5; 1]%float) = nan
  /\ minRR (calculateStats [1; 9]%nat [0; 0.5; 1]%float) = nan
  /\ maxRR (calculateStats [1; 9]%nat [0; 0.5; 1]%float) = nan.
Proof.
  apply (calculateStats_outside_index_nan [1; 9]%nat [0; 0.5; 1]%float 9).
  - simpl. lia.
  - right. left. reflexivity.
  - simpl. lia.
Defined.

Lemma ltb_neg_infinity (c x : float) :
  (c <? x)%float = true -> (neg_infinity <? x)%float = true.
Proof.
  rewrite !ltb_spec. change (Prim2SF neg_infinity) with (S754_infinity true).
  unfold SFltb.
  destruct (Prim2SF x) as [s | s | | s m e]; simpl; try reflexivity.
  - destruct s; [|reflexivity].
    destruct (Prim2SF c) as [s' | s' | | s' m' e']; simpl; try discriminate;
      destruct s'; discriminate.
  - now destruct (Prim2SF c).
Qed.

Lemma all_above_no_nan (c : float) (l : list JS.number) :
  Forall (fun x => (c <? x)%float = true) l ->
  existsb PrimFloat.is_nan l = false.
Proof.
  intros H. induction H as [|x l Hx _ IH]; [reflexivity|].
  simpl. destruct (ltb_true_not_nan _ _ Hx) as [_ N]. now rewrite N.
Qed.

(** The smallest of numbers all above [c] is above [c]. *)
Lemma Math_min_above (c : float) (l : list JS.number) :
  (c <? infinity)%float = true ->
  Forall (fun x => (c <? x)%float = true) l ->
  (c <? JS.Math_min l)%float = true.
Proof.
  intros Hinf H. unfold JS.Math_min. rewrite (all_above_no_nan c l H).
  revert Hinf. generalize infinity.
  induction H as [|x l Hx _ IH]; intros acc Hacc; [exact Hacc|].
  simpl. apply IH.
  destruct (JS.is_neg_zero x && JS.is_pos_zero acc); [exact Hx|].
  now destruct (x <? acc)%float.
Qed.

(** The largest of at least one number, all above [c], is above [c]. *)
Lemma Math_max_above (c : float) (l : list JS.number) :
  l <> [] ->
  Forall (fun x => (c <? x)%float = true) l ->
  (c <? JS.Math_max l)%float = true.
Proof.
  intros Hne H. unfold JS.Math_max. rewrite (all_above_no_nan c l H).
  destruct H as [|x l Hx H]; [congruence|]. clear Hne.
  simpl.
  assert (Hacc : (c <? (if JS.is_pos_zero x && JS.is_neg_zero neg_infinity
                        then x
                        else if (neg_infinity <? x)%float then x
                             else neg_infinity))%float = true).
  { rewrite (ltb_neg_infinity c x Hx).
    now destruct (JS.is_pos_zero x && JS.is_neg_zero neg_infinity). }
  revert Hacc.
  generalize (if JS.is_pos_zero x && JS.is_neg_zero neg_infinity
              then x
              else if (neg_infinity <? x)%float then x else neg_infinity).
  induction H as [|y l Hy _ IH]; intros acc Hacc; [exact Hacc|].
  simpl. apply IH.
  destruct (JS.is_pos_zero y && JS.is_neg_zero acc); [exact Hy|].
  now destruct (acc <? y)%float.
Qed.

(** X7. Detection followed by statistics: when at least two beats are
    detected, there is one RR interval per pair of consecutive beats, every
    RR interval exceeds the refractory period of [0.25] s, and so do [minRR]
    and [maxRR]. *)
Theorem detected_rr_exceed_refractory (time voltage : list JS.number) :
  (2 <= length (detectRPeaks time voltage))%nat ->
  let s := calculateStats (detectRPeaks time voltage) time in
  length (rrIntervals s) = (length (detectRPeaks time voltage) - 1)%nat
  /\ Forall (fun rr => (0.25 <? rr)%float = true) (rrIntervals s)
  /\ (0.25 <? minRR s)%float = true
  /\ (0.25 <? maxRR s)%float = true.
Proof.
  intros Hlen s. subst s.
  destruct (detectRPeaks_facts time voltage) as (_ & _ & Href).
  unfold calculateStats.
  assert (E : (length (detectRPeaks time voltage) <? 2)%nat = false)
    by (apply Nat.ltb_ge; lia).
  rewrite E. cbn [rrIntervals minRR maxRR]. rewrite rr_loop_spec.
  assert (Hall : Forall (fun rr => (0.25 <? rr)%float = true)
                   (rr_spec (detectRPeaks time voltage) time)).
  { unfold rr_spec. apply Forall_forall. intros x Hx.
    apply list_elem_of_In, in_map_iff in Hx as (k & <- & Hk).
    apply in_seq in Hk.
    destruct (lookup_lt_is_Some_2 (detectRPeaks time voltage) k) as [b1 H1];
      [lia|].
    destruct (lookup_lt_is_Some_2 (detectRPeaks time voltage) (k + 1)) as [b2 H2];
      [lia|].
    rewrite H1, H2. simpl. apply (Href k b1 b2 H1).
    now replace (S k) with (k + 1)%nat by lia. }
  split; [apply rr_spec_length|]. split; [exact Hall|]. split.
  - apply Math_min_above; [reflexivity | exact Hall].
  - apply Math_max_above; [|exact Hall].
    intros Hnil. apply (f_equal length) in Hnil.
    rewrite rr_spec_length in Hnil. simpl in Hnil. lia.
Qed.

Lemma detected_rr_exceed_refractory_witness :
  (0.25 <? minRR (calculateStats (detectRPeaks c10_time c10_voltage)
                    c10_time))%float = true.
Proof.
  apply (detected_rr_exceed_refractory c10_time c10_voltage).
  vm_compute. lia.
Defined.

(** * What the dashboard shows *)

(** Against two positive constants in different binades, the comparisons of
    a number are ordered as the constants are. *)
Lemma ltb_below_smaller (x a b : float) (ma mb : positive) (ea eb : Z) :
  Prim2SF a = S754_finite false ma ea ->
  Prim2SF b = S754_finite false mb eb ->
  (ea < eb)%Z ->
  (x <? a)%float = true -> (x <? b)%float = true.
Proof.
  intros Ha Hb Hlt. rewrite !ltb_spec, Ha, Hb. unfold SFltb.
  destruct (Prim2SF x) as [s | s | | s m e]; simpl; try discriminate;
    try (now destruct s).
  destruct s; [reflexivity|].
  destruct (Z.compare_spec e ea), (Z.compare_spec e eb);
    try lia; try discriminate; auto.
Qed.

Lemma ltb_above_larger (x a b : float) (ma mb : positive) (ea eb : Z) :
  Prim2SF a = S754_finite false ma ea ->
  Prim2SF b = S754_finite false mb eb ->
  (ea < eb)%Z ->
  (b <? x)%float = true -> (x <? a)%float = false.
Proof.
  intros Ha Hb Hlt. rewrite !ltb_spec, Ha, Hb. unfold SFltb.
  destruct (Prim2SF x) as [s | s | | s m e]; simpl; try discriminate;
    try (now destruct s).
  destruct s; [discriminate|].
  destruct (Z.compare_spec eb e), (Z.compare_spec e ea);
    try lia; try discriminate; auto.
Qed.

Lemma above_larger (x a b : float) :
  lower_binade a b = true ->
  (b <? x)%float = true -> (x <? a)%float = false.
Proof.
  unfold lower_binade. intros H.
  destruct (Prim2SF a) as [| | |[] ma ea] eqn:Ha; try discriminate.
  destruct (Prim2SF b) as [| | |[] mb eb] eqn:Hb; try discriminate.
  apply (ltb_above_larger x a b ma mb ea eb Ha Hb). now apply Z.ltb_lt.
Qed.

Lemma below_smaller (x a b : float) :
  lower_binade a b = true ->
  (x <? a)%float = true -> (x <? b)%float = true.
Proof.
  unfold lower_binade. intros H.
  destruct (Prim2SF a) as [| | |[] ma ea] eqn:Ha; try discriminate.
  destruct (Prim2SF b) as [| | |[] mb eb] eqn:Hb; try discriminate.
  apply (ltb_below_smaller x a b ma mb ea eb Ha Hb). now apply Z.ltb_lt.
Qed.

Module DescribeFacts.

Import Stdlib.Strings.String.
Import Describe.
#[local] Open Scope string_scope.

(** X8. [getHRVStatus] splits the numbers at 50 and 100: "Low / Unhealthy"
    exactly below 50, "Moderate / Compromised" exactly from 50 up to but not
    including 100, and "High / Healthy" exactly from 100 on, and for NaN. *)
Theorem getHRVStatus_ranges (sdnn : JS.number) :
  (status (getHRVStatus sdnn) = "Low / Unhealthy"
   <-> (sdnn <? 50)%float = true)
  /\ (status (getHRVStatus sdnn) = "Moderate / Compromised"
      <-> (50 <=? sdnn)%float = true /\ (sdnn <? 100)%float = true)
  /\ (status (getHRVStatus sdnn) = "High / Healthy"
      <-> (100 <=? sdnn)%float = true \/ PrimFloat.is_nan sdnn = true).
Proof.
  assert (T : (sdnn <? 50)%float = true -> (sdnn <? 100)%float = true).
  { apply (ltb_below_smaller sdnn 50 100 _ _ _ _ eq_refl eq_refl).
    vm_compute. reflexivity. }
  unfold getHRVStatus.
  destruct (PrimFloat.is_nan sdnn) eqn:N.
  - rewrite !(ltb_nan_l _ _ N).
    assert (L : forall c, (c <=? sdnn)%float = false).
    { intros c. rewrite leb_spec. rewrite is_nan_spec in N. unfold SFleb.
      destruct (Prim2SF sdnn); try discriminate. now destruct (Prim2SF c). }
    rewrite !L. simpl. repeat split; try discriminate; auto.
    intros [? ?]. discriminate.
  - rewrite (leb_negb_ltb 50 sdnn eq_refl N), (leb_negb_ltb 100 sdnn eq_refl N).
    destruct (sdnn <? 50)%float eqn:A.
    + rewrite (T eq_refl). simpl.
      repeat split; try discriminate; auto; intros []; discriminate.
    + destruct (sdnn <? 100)%float; simpl;
        repeat split; try discriminate; auto; intros []; discriminate.
Qed.

(** X9. The rhythm caption splits the rates at 60 and 100: "Tachycardia"
    exactly above 100, "Bradycardia" exactly below 60, and "Normal Sinus
    Rhythm" exactly from 60 to 100 inclusive, and for NaN. *)
Theorem rhythm_caption_ranges (bpm : JS.number) :
  (rhythm_caption bpm = "Tachycardia" <-> (100 <? bpm)%float = true)
  /\ (rhythm_caption bpm = "Bradycardia" <-> (bpm <? 60)%float = true)
  /\ (rhythm_caption bpm = "Normal Sinus Rhythm"
      <-> ((60 <=? bpm)%float = true /\ (bpm <=? 100)%float = true)
          \/ PrimFloat.is_nan bpm = true).
Proof.
  assert (T : (100 <? bpm)%float = true -> (bpm <? 60)%float = false).
  { apply (ltb_above_larger bpm 60 100 _ _ _ _ eq_refl eq_refl).
    vm_compute. reflexivity. }
  unfold rhythm_caption.
  destruct (PrimFloat.is_nan bpm) eqn:N.
  - rewrite (ltb_nan_l _ _ N), (ltb_nan_r _ _ N). simpl.
    repeat split; try discriminate; auto.
  - rewrite (leb_negb_ltb 60 bpm eq_refl N), (leb_negb_ltb bpm 100 N eq_refl).
    destruct (100 <? bpm)%float eqn:A.
    + rewrite (T eq_refl). simpl.
      repeat split; try discriminate; auto.
      intros [[_ ?] | ?]; discriminate.
    + destruct (bpm <? 60)%float; simpl;
        repeat split; try discriminate; auto;
        intros [[? ?] | ?]; discriminate.
Qed.

(** X10. Too few beats are shown as a diagnosis: with fewer than 2 beat
    indices the statistics carry [sdnn = 0] and [bpm = 0], which the
    dashboard captions "Low / Unhealthy" (in red) and "Bradycardia". *)
Theorem insufficient_beats_captions (beats : list nat) (time : list JS.number) :
  (List.length beats < 2)%nat ->
  getHRVStatus (sdnn (calculateStats beats time))
  = {| status := "Low / Unhealthy"; color := "text-red-500" |}
  /\ rhythm_caption (bpm (calculateStats beats time)) = "Bradycardia".
Proof.
  intros H. unfold calculateStats.
  apply Nat.ltb_lt in H. rewrite H. split; reflexivity.
Qed.

Lemma insufficient_beats_captions_witness :
  getHRVStatus (sdnn (calculateStats [] (sampled_time 250 1000)))
  = {| status := "Low / Unhealthy"; color := "text-red-500" |}
  /\ rhythm_caption (bpm (calculateStats [] (sampled_time 250 1000)))
     = "Bradycardia".
Proof.
  apply (insufficient_beats_captions [] (sampled_time 250 1000)). simpl. lia.
Defined.

(** X11. [getSegmentDescription] answers every string: the three wave names
    get their own entries, and every other string, ['baseline'] included,
    gets the isoelectric-line entry.  The four segment labels have four
    different titles. *)
Theorem getSegmentDescription_fallback (segment : string) :
  (getSegmentDescription segment = isoelectric
   <-> segment <> "p" /\ segment <> "qrs" /\ segment <> "t")
  /\ (forall s1 s2 : WaveSegment,
        title (getSegmentDescription (segment_name s1))
        = title (getSegmentDescription (segment_name s2)) -> s1 = s2).
Proof.
  split.
  - unfold getSegmentDescription.
    destruct (String.eqb_spec segment "p") as [-> | Hp];
      [split; [discriminate | intros (? & _); congruence]|].
    destruct (String.eqb_spec segment "qrs") as [-> | Hq];
      [split; [discriminate | intros (_ & ? & _); congruence]|].
    destruct (String.eqb_spec segment "t") as [-> | Ht];
      [split; [discriminate | intros (_ & _ & ?); congruence]|].
    destruct (String.eqb segment "baseline"); split; auto.
  - intros [] []; simpl; intros H; try reflexivity; discriminate H.
Qed.

End DescribeFacts.

(** * The analysis pipeline *)

(** A signal too short to scan, or flat, has no beat. *)
Lemma quiet_signal_no_beats (time voltage : list JS.number) :
  (length time < 3)%nat \/ (length voltage < 3)%nat \/ flat voltage = true ->
  detectRPeaks time voltage = [].
Proof.
  intros H. unfold detectRPeaks.
  destruct ((length time =? 0)%nat || (length voltage =? 0)%nat);
    [reflexivity|].
  rewrite peak_loop_none; [reflexivity|].
  intros i Hi. apply in_seq in Hi.
  destruct H as [Ht | [Hv | Hflat]]; [lia | | apply flat_not_qualifies; [auto | lia]].
  unfold qualifies.
  rewrite (ltb_nan_l (JS.get (centered_of voltage) (i + 1))).
  - now rewrite andb_false_r.
  - rewrite get_out_of_range; [reflexivity|].
    unfold centered_of. rewrite length_map. lia.
Qed.

(** X13. Labels that come with the signal are authoritative: a non-empty
    [rawSegments] is stored as it is and the segmenter is not run; with no
    [rawSegments] the stored array has one label per sample. *)
Theorem analyzeData_segments (rawTime rawVoltage : list JS.number) :
  (forall s, s <> [] ->
     an_data (analyzeData rawTime rawVoltage (Some s))
     = {| time := rawTime; voltage := rawVoltage; segments := Some s |})
  /\ exists segs,
       an_data (analyzeData rawTime rawVoltage None)
       = {| time := rawTime; voltage := rawVoltage; segments := Some segs |}
       /\ length segs = length rawTime
       /\ Forall is_Some segs.
Proof.
  split.
  - intros s Hs. unfold analyzeData. simpl.
    destruct s as [|x s]; [congruence | reflexivity].
  - eexists. split; [reflexivity|].
    unfold segment_labels, initial_segments. simpl.
    assert (Q_set : forall (segs : list slot) i v,
              length segs = length rawTime /\ Forall is_Some segs ->
              (i < length rawTime)%nat ->
              length (js_set segs i v) = length rawTime
              /\ Forall is_Some (js_set segs i v)).
    { intros segs i v [L F] Hi. split.
      - rewrite js_set_length; [exact L | lia].
      - apply js_set_labelled; [lia | exact F]. }
    apply (segment_fold_bounds (length rawTime)
             (fun segs => length segs = length rawTime /\ Forall is_Some segs)
             Q_set rawTime _ _ eq_refl).
    split; [apply length_replicate|].
    apply Forall_replicate. unfold is_Some. eauto.
Qed.

Lemma rr_spec_cons (a b : nat) (rest : list nat) (time : list JS.number) :
  rr_spec (a :: b :: rest) time
  = (JS.get time b - JS.get time a)%float :: rr_spec (b :: rest) time.
Proof.
  unfold rr_spec. cbn [length Nat.sub].
  rewrite Nat.sub_0_r. cbn [seq map]. f_equal.
  rewrite <- seq_shift, map_map. apply map_ext_in.
  intros k Hk. reflexivity.
Qed.

Lemma rr_spec_gaps (beats : list nat) (time : list JS.number) :
  rr_spec beats time = gaps (map (JS.get time) beats).
Proof.
  induction beats as [|a [|b rest] IH]; try reflexivity.
  rewrite rr_spec_cons, IH. reflexivity.
Qed.

(** X14. The two views of the rhythm agree: every reported beat timestamp is
    a sample time (never [undefined]), there is one per beat index, and the
    RR intervals in the statistics are exactly the gaps between successive
    reported timestamps. *)
Theorem analyzeData_timestamps_and_intervals
    (rawTime rawVoltage : list JS.number) (rawSegments : option (list slot)) :
  exists ts,
    an_timestamps (analyzeData rawTime rawVoltage rawSegments) = map Some ts
    /\ length ts
       = length (an_indices (analyzeData rawTime rawVoltage rawSegments))
    /\ rrIntervals (an_stats (analyzeData rawTime rawVoltage rawSegments))
       = gaps ts.
Proof.
  exists (map (JS.get rawTime) (detectRPeaks rawTime rawVoltage)).
  unfold analyzeData. cbn [an_timestamps an_indices an_stats].
  destruct (detectRPeaks_facts rawTime rawVoltage) as (_ & Hall & _).
  split; [|split].
  - rewrite map_map. apply map_ext_in. intros i Hi.
    rewrite Forall_forall in Hall. apply list_elem_of_In, Hall in Hi.
    destruct (lookup_lt_is_Some_2 rawTime i) as [x Hx]; [lia|].
    unfold JS.get. now rewrite Hx.
  - apply length_map.
  - rewrite <- rr_spec_gaps. unfold calculateStats.
    destruct (length (detectRPeaks rawTime rawVoltage) <? 2)%nat eqn:E.
    + apply Nat.ltb_lt in E. cbn [rrIntervals].
      destruct (detectRPeaks rawTime rawVoltage) as [|a [|b rest]];
        simpl in E; try lia; reflexivity.
    + cbn [rrIntervals]. apply rr_loop_spec.
Qed.

(** * The synthetic generator *)

Section GeneratorFacts.

Variables (Math_sin Math_exp : JS.number -> JS.number).
Variable Math_random : nat -> JS.number.
Variables (type : ECGType) (durationSeconds : JS.number).

Lemma gen_step_time (i : nat) (st : gen_state) :
  g_time (gen_step Math_sin Math_exp Math_random type i st)
  = g_time st ++ [(JS.of_nat i / fs)%float].
Proof.
  unfold gen_step.
  destruct (g_nextBeatTime st <=? JS.of_nat i / fs)%float;
    destruct (t_block _ _ _ _); reflexivity.
Qed.

Lemma gen_step_lengths (i : nat) (st : gen_state) :
  length (g_voltage (gen_step Math_sin Math_exp Math_random type i st))
  = S (length (g_voltage st))
  /\ length (g_segments (gen_step Math_sin Math_exp Math_random type i st))
     = S (length (g_segments st)).
Proof.
  unfold gen_step.
  destruct (g_nextBeatTime st <=? JS.of_nat i / fs)%float;
    destruct (t_block _ _ _ _); simpl; rewrite !length_app; simpl; lia.
Qed.

(** The loop runs the body for [i, i + 1, ...] up to the first counter that
    fails the test, and returns if the fuel reaches that far. *)
Lemma gen_loop_run (n : nat) :
  forall fuel i st,
    (forall k, (k < n)%nat -> gen_continues durationSeconds (i + k) = true) ->
    gen_continues durationSeconds (i + n) = false ->
    (n < fuel)%nat ->
    gen_loop Math_sin Math_exp Math_random type durationSeconds fuel i st
    = Some (fold_left (fun s k => gen_step Math_sin Math_exp Math_random type k s)
                      (seq i n) st).
Proof.
  unfold gen_continues.
  induction n as [|n IH]; intros fuel i st Hgo Hstop Hfuel;
    (destruct fuel as [|fuel]; [lia|]); simpl.
  - rewrite Nat.add_0_r in Hstop. now rewrite Hstop.
  - specialize (Hgo 0%nat ltac:(lia)) as H0. rewrite Nat.add_0_r in H0.
    rewrite H0. apply IH; [| |lia].
    + intros k Hk. replace (S i + k)%nat with (i + S k)%nat by lia.
      apply Hgo. lia.
    + now replace (S i + n)%nat with (i + S n)%nat by lia.
Qed.

Lemma gen_fold_shape (n : nat) :
  forall i st,
    let st' := fold_left
                 (fun s k => gen_step Math_sin Math_exp Math_random type k s)
                 (seq i n) st in
    g_time st' = g_time st ++ map (fun k => (JS.of_nat k / fs)%float) (seq i n)
    /\ length (g_voltage st') = (length (g_voltage st) + n)%nat
    /\ length (g_segments st') = (length (g_segments st) + n)%nat.
Proof.
  induction n as [|n IH]; intros i st; cbn [seq fold_left map].
  - rewrite app_nil_r. repeat split; lia.
  - destruct (IH (S i) (gen_step Math_sin Math_exp Math_random type i st))
      as (Ht & Hv & Hs).
    destruct (gen_step_lengths i st) as [Lv Ls].
    rewrite Ht, Hv, Hs, gen_step_time, Lv, Ls, <- app_assoc.
    repeat split; lia.
Qed.

End GeneratorFacts.

(** X15. The generator returns three parallel arrays: when the loop test
    first fails at counter [n], the result has [n] times, [n] voltages and
    [n] labels, and the times are [0, 1/250, 2/250, ...], whatever the
    rhythm type and whatever [Math.sin], [Math.exp] and [Math.random]
    return. *)
Theorem generateSyntheticECG_parallel_arrays
    (Math_sin Math_exp : JS.number -> JS.number) (Math_random : nat -> JS.number)
    (type : ECGType) (durationSeconds : JS.number) (n fuel : nat) :
  (forall k, (k < n)%nat -> gen_continues durationSeconds k = true) ->
  gen_continues durationSeconds n = false ->
  (n < fuel)%nat ->
  exists data labels,
    generateSyntheticECG Math_sin Math_exp Math_random fuel type durationSeconds
    = Some data
    /\ time data = sampled_time 250 n
    /\ length (voltage data) = n
    /\ segments data = Some (map Some labels)
    /\ length labels = n.
Proof.
  intros Hgo Hstop Hfuel. unfold generateSyntheticECG.
  rewrite (gen_loop_run Math_sin Math_exp Math_random type durationSeconds n
             fuel 0 gen_init) by auto.
  destruct (gen_fold_shape Math_sin Math_exp Math_random type n 0 gen_init)
    as (Ht & Hv & Hs).
  eexists _, _. repeat split; simpl; auto.
Qed.

Lemma ten_seconds_bound :
  (forall k, (k < 2500)%nat -> gen_continues 10 k = true)
  /\ gen_continues 10 2500 = false.
Proof.
  split; [|vm_compute; reflexivity].
  assert (H : forallb (gen_continues 10) (seq 0 2500) = true)
    by (vm_compute; reflexivity).
  rewrite forallb_forall in H. intros k Hk. apply H, in_seq. lia.
Qed.

Lemma generateSyntheticECG_parallel_arrays_witness :
  exists data labels,
    generateSyntheticECG (fun _ => 0%float) (fun _ => 1%float)
      (fun _ => 0.5%float) 2501 normal 10 = Some data
    /\ time data = sampled_time 250 2500
    /\ length (voltage data) = 2500%nat
    /\ segments data = Some (map Some labels)
    /\ length labels = 2500%nat.
Proof.
  apply (generateSyntheticECG_parallel_arrays (fun _ => 0%float)
           (fun _ => 1%float) (fun _ => 0.5%float) normal 10 2500 2501).
  - apply ten_seconds_bound.
  - apply ten_seconds_bound.
  - lia.
Defined.

(** ** Ground-truth labels *)

Section GeneratorLabels.

Variables (Math_sin Math_exp : JS.number -> JS.number).
Variable Math_random : nat -> JS.number.

Lemma p_block_label (type : ECGType) (t phase v : JS.number) :
  snd (p_block Math_sin Math_exp type t phase (v, Seg_baseline))
  = if in_p_window type phase then Seg_p else Seg_baseline.
Proof.
  unfold p_block, in_p_window.
  destruct (is_afib type); simpl; [reflexivity|].
  destruct ((0.1 <? phase)%float && (phase <? 0.22)%float); simpl;
    [|reflexivity].
  now destruct (JS.Math_abs (phase - 0.16) <? 0.05)%float.
Qed.

Lemma qrs_block_label (phase : JS.number) (vs : JS.number * WaveSegment) :
  snd (qrs_block Math_exp phase vs)
  = if in_qrs_window phase then Seg_qrs else snd vs.
Proof.
  unfold qrs_block, in_qrs_window. destruct vs as [v seg].
  now destruct ((0.38 <? phase)%float && (phase <? 0.44)%float).
Qed.

Lemma t_block_label (q phase : JS.number) (vs : JS.number * WaveSegment) :
  snd (t_block Math_exp q phase vs) = Seg_t
  \/ snd (t_block Math_exp q phase vs) = snd vs.
Proof.
  unfold t_block. destruct vs as [v seg].
  destruct ((0.5 * q <? phase)%float && (phase <? 0.75 * q)%float); simpl;
    [|now right].
  destruct (0.05 <? _)%float; [now left | now right].
Qed.

(** Below the start of the T window the T block leaves the label alone. *)
Lemma t_block_before (q phase : JS.number) (vs : JS.number * WaveSegment) :
  (0.5 * q <? phase)%float = false ->
  snd (t_block Math_exp q phase vs) = snd vs.
Proof.
  intros H. unfold t_block. destruct vs as [v seg]. now rewrite H.
Qed.

(** The T window of every rhythm type starts above the P and QRS windows. *)
Lemma t_window_after (type : ECGType) (phase : JS.number) :
  (phase <? 0.44)%float = true ->
  (0.5 * r_qtFactor (rhythm_of type) <? phase)%float = false.
Proof.
  intros H.
  destruct ((0.5 * r_qtFactor (rhythm_of type) <? phase)%float) eqn:E;
    [|reflexivity].
  assert (F : (phase <? 0.44)%float = false); [|congruence].
  destruct type;
    (eapply above_larger; [|exact E]; vm_compute; reflexivity).
Qed.

Lemma p_window_before_qrs (type : ECGType) (phase : JS.number) :
  in_p_window type phase = true ->
  in_qrs_window phase = false /\ (phase <? 0.44)%float = true.
Proof.
  unfold in_p_window, in_qrs_window. intros H.
  apply andb_true_iff in H as [H _]. apply andb_true_iff in H as [_ H].
  apply andb_true_iff in H as [_ H].
  split.
  - destruct (0.38 <? phase)%float eqn:E; [|reflexivity].
    rewrite (above_larger phase 0.22 0.38 eq_refl E) in H. discriminate.
  - exact (below_smaller phase 0.22 0.44 eq_refl H).
Qed.

(** The label one iteration computes from the phase of its sample. *)
Lemma blocks_label (type : ECGType) (t phase v : JS.number) :
  let label :=
    snd (t_block Math_exp (r_qtFactor (rhythm_of type)) phase
           (qrs_block Math_exp phase
              (p_block Math_sin Math_exp type t phase (v, Seg_baseline)))) in
  (label = Seg_qrs <-> in_qrs_window phase = true)
  /\ (label = Seg_p <-> in_p_window type phase = true).
Proof.
  intros label. subst label.
  destruct (in_qrs_window phase) eqn:Q.
  - assert (H44 : (phase <? 0.44)%float = true).
    { unfold in_qrs_window in Q. now apply andb_true_iff in Q as [_ Q]. }
    rewrite t_block_before by (now apply t_window_after).
    rewrite qrs_block_label, Q.
    split; split; auto; try discriminate.
    intros P. apply p_window_before_qrs in P as [P _]. congruence.
  - destruct (in_p_window type phase) eqn:P.
    + destruct (p_window_before_qrs _ _ P) as [_ H44].
      rewrite t_block_before by (now apply t_window_after).
      rewrite qrs_block_label, Q, p_block_label, P.
      split; split; auto; discriminate.
    + destruct (t_block_label (r_qtFactor (rhythm_of type)) phase
                  (qrs_block Math_exp phase
                     (p_block Math_sin Math_exp type t phase (v, Seg_baseline))))
        as [E | E]; rewrite E; [split; split; discriminate|].
      rewrite qrs_block_label, Q, p_block_label, P.
      split; split; discriminate.
Qed.

(** What an iteration appends to [segments], and the phase it used. *)
Lemma gen_step_label (type : ECGType) (i : nat) (st : gen_state) :
  exists v,
    g_segments (gen_step Math_sin Math_exp Math_random type i st)
    = g_segments st
      ++ [snd (t_block Math_exp (r_qtFactor (rhythm_of type))
                 (phase_of (60 / r_bpm (rhythm_of type))
                    (g_nextBeatTime
                       (gen_step Math_sin Math_exp Math_random type i st))
                    (JS.of_nat i / fs))
                 (qrs_block Math_exp
                    (phase_of (60 / r_bpm (rhythm_of type))
                       (g_nextBeatTime
                          (gen_step Math_sin Math_exp Math_random type i st))
                       (JS.of_nat i / fs))
                    (p_block Math_sin Math_exp type (JS.of_nat i / fs)
                       (phase_of (60 / r_bpm (rhythm_of type))
                          (g_nextBeatTime
                             (gen_step Math_sin Math_exp Math_random type i st))
                          (JS.of_nat i / fs))
                       (v, Seg_baseline))))].
Proof.
  exists (0 + Math_sin (JS.of_nat i / fs * 0.2) * 0.05)%float.
  unfold gen_step.
  destruct (g_nextBeatTime st <=? JS.of_nat i / fs)%float;
    destruct (t_block _ _ _ _) eqn:E;
    cbn [g_segments g_nextBeatTime]; rewrite E; reflexivity.
Qed.

End GeneratorLabels.

(** X16. The ground-truth label of a generated sample is decided by its
    phase: it is [qrs] exactly when [0.38 < phase < 0.44] (the T window of
    every rhythm type starts later, so nothing overwrites it), and [p]
    exactly when the type is not [afib], [0.1 < phase < 0.22] and
    [|phase - 0.16| < 0.05].  [phase] is computed from [nextBeatTime] as the
    iteration leaves it. *)
Theorem generated_label_by_phase
    (Math_sin Math_exp : JS.number -> JS.number) (Math_random : nat -> JS.number)
    (type : ECGType) (i : nat) (st : gen_state) :
  let st' := gen_step Math_sin Math_exp Math_random type i st in
  let phase := phase_of (60 / r_bpm (rhythm_of type))%float
                 (g_nextBeatTime st') (JS.of_nat i / fs)%float in
  (last (g_segments st') = Some Seg_qrs <-> in_qrs_window phase = true)
  /\ (last (g_segments st') = Some Seg_p <-> in_p_window type phase = true).
Proof.
  intros st' phase. subst st' phase.
  destruct (gen_step_label Math_sin Math_exp Math_random type i st) as [v E].
  rewrite E, last_snoc.
  destruct (blocks_label Math_sin Math_exp type (JS.of_nat i / fs)%float
              (phase_of (60 / r_bpm (rhythm_of type))%float
                 (g_nextBeatTime
                    (gen_step Math_sin Math_exp Math_random type i st))
                 (JS.of_nat i / fs)%float) v) as [Hq Hp].
  split; split; intros H.
  - apply Hq. congruence.
  - f_equal. now apply Hq.
  - apply Hp. congruence.
  - f_equal. now apply Hp.
Qed.

(** X17. An [afib] recording has no P wave: none of its samples is labelled
    [p]. *)
Theorem afib_has_no_p_label
    (Math_sin Math_exp : JS.number -> JS.number) (Math_random : nat -> JS.number)
    (durationSeconds : JS.number) (n fuel : nat) :
  (forall k, (k < n)%nat -> gen_continues durationSeconds k = true) ->
  gen_continues durationSeconds n = false ->
  (n < fuel)%nat ->
  exists data labels,
    generateSyntheticECG Math_sin Math_exp Math_random fuel afib durationSeconds
    = Some data
    /\ segments data = Some (map Some labels)
    /\ length labels = n
    /\ ~ In Seg_p labels.
Proof.
  intros Hgo Hstop Hfuel. unfold generateSyntheticECG.
  rewrite (gen_loop_run Math_sin Math_exp Math_random afib durationSeconds n
             fuel 0 gen_init) by auto.
  destruct (gen_fold_shape Math_sin Math_exp Math_random afib n 0 gen_init)
    as (_ & _ & Hs).
  eexists _, _. split; [reflexivity|]. split; [reflexivity|].
  split; [exact Hs|].
  assert (Hinv : forall l st,
            ~ In Seg_p (g_segments st) ->
            ~ In Seg_p (g_segments
                 (fold_left
                    (fun s k => gen_step Math_sin Math_exp Math_random afib k s)
                    l st))).
  { induction l as [|k l IH]; intros st H; [exact H|].
    cbn [fold_left]. apply IH.
    destruct (gen_step_label Math_sin Math_exp Math_random afib k st) as [v E].
    rewrite E. intros Hin. apply in_app_or in Hin as [Hin | [Hin | []]];
      [now apply H|].
    apply (proj2 (blocks_label Math_sin Math_exp afib _ _ _)) in Hin.
    discriminate Hin. }
  apply Hinv. simpl. tauto.
Qed.

Lemma afib_has_no_p_label_witness :
  exists data labels,
    generateSyntheticECG (fun _ => 0%float) (fun _ => 1%float)
      (fun _ => 0.5%float) 2501 afib 10 = Some data
    /\ segments data = Some (map Some labels)
    /\ length labels = 2500%nat
    /\ ~ In Seg_p labels.
Proof.
  apply (afib_has_no_p_label (fun _ => 0%float) (fun _ => 1%float)
           (fun _ => 0.5%float) 10 2500 2501).
  - apply ten_seconds_bound.
  - apply ten_seconds_bound.
  - lia.
Defined.

(** A run of [n > 0] samples analysed as [loadPreset] does: the stored data
    are the generated data. *)
Lemma preset_run
    (Math_sin Math_exp : JS.number -> JS.number) (Math_random : nat -> JS.number)
    (type : ECGType) (n fuel : nat) :
  (forall k, (k < n)%nat -> gen_continues 10 k = true) ->
  gen_continues 10 n = false ->
  (0 < n)%nat -> (n < fuel)%nat ->
  exists synthetic analysis,
    generateSyntheticECG Math_sin Math_exp Math_random fuel type 10
    = Some synthetic
    /\ length (time synthetic) = n
    /\ loadPreset Math_sin Math_exp Math_random fuel type = Some analysis
    /\ an_data analysis = synthetic.
Proof.
  intros Hgo Hstop Hpos Hfuel. unfold loadPreset, generateSyntheticECG.
  rewrite (gen_loop_run Math_sin Math_exp Math_random type 10 n
             fuel 0 gen_init Hgo Hstop Hfuel).
  destruct (gen_fold_shape Math_sin Math_exp Math_random type n 0 gen_init)
    as (Ht & _ & Hs).
  revert Ht Hs.
  generalize (fold_left
                (fun s k => gen_step Math_sin Math_exp Math_random type k s)
                (seq 0 n) gen_init).
  intros st Ht Hs.
  eexists _, _. split; [reflexivity|]. split; [|split; [reflexivity|]].
  - cbn [time]. rewrite Ht. cbn [g_time gen_init app].
    now rewrite length_map, length_seq.
  - unfold analyzeData. cbn [an_data time voltage segments].
    cbn [g_segments gen_init length Nat.add] in Hs.
    destruct (g_segments st) as [|x l]; [simpl in Hs; lia | reflexivity].
Qed.

(** X18. Every preset is 10 seconds at 250 Hz, 2500 samples, and is shown
    with the generator's own labels: [loadPreset] returns for every rhythm
    type, and the data it stores are the generated data, the segmenter not
    having run. *)
Theorem loadPreset_keeps_generated_labels
    (Math_sin Math_exp : JS.number -> JS.number) (Math_random : nat -> JS.number)
    (type : ECGType) (fuel : nat) :
  (2500 < fuel)%nat ->
  exists synthetic analysis,
    generateSyntheticECG Math_sin Math_exp Math_random fuel type 10
    = Some synthetic
    /\ length (time synthetic) = 2500%nat
    /\ loadPreset Math_sin Math_exp Math_random fuel type = Some analysis
    /\ an_data analysis = synthetic.
Proof.
  intros Hfuel. destruct ten_seconds_bound as [Hgo Hstop].
  apply preset_run; auto. lia.
Qed.

Lemma loadPreset_keeps_generated_labels_witness :
  exists synthetic analysis,
    generateSyntheticECG (fun _ => 0%float) (fun _ => 1%float)
      (fun _ => 0.5%float) 2501 tachycardia 10 = Some synthetic
    /\ length (time synthetic) = 2500%nat
    /\ loadPreset (fun _ => 0%float) (fun _ => 1%float) (fun _ => 0.5%float)
         2501 tachycardia = Some analysis
    /\ an_data analysis = synthetic.
Proof.
  apply (loadPreset_keeps_generated_labels (fun _ => 0%float)
           (fun _ => 1%float) (fun _ => 0.5%float) tachycardia 2501). lia.
Defined.

(** * Calls that can throw *)

(** [detectRPeaks] throws exactly when it gets past its guard with more
    samples than one call takes arguments; otherwise it returns the indices
    studied above. *)
Lemma detectRPeaks_run_value (limit : nat) (time voltage : list JS.number) :
  detectRPeaks_run limit time voltage
  = if (length time =? 0)%nat || (length voltage =? 0)%nat
       || (length voltage <=? limit)%nat
    then Returns (detectRPeaks time voltage)
    else Throws_RangeError.
Proof.
  unfold detectRPeaks_run, detectRPeaks, Math_max_spread.
  destruct ((length time =? 0)%nat || (length voltage =? 0)%nat);
    [reflexivity|].
  unfold centered_of at 1. rewrite !length_map. simpl orb.
  now destruct (length voltage <=? limit)%nat.
Qed.

Lemma detectRPeaks_run_returns (limit : nat) (time voltage : list JS.number)
    (indices : list nat) :
  detectRPeaks_run limit time voltage = Returns indices ->
  indices = detectRPeaks time voltage.
Proof.
  rewrite detectRPeaks_run_value.
  destruct (_ || _ || _); congruence.
Qed.

Lemma rr_loop_length (beats : list nat) (time : list JS.number) :
  length (rr_loop beats time) = (length beats - 1)%nat.
Proof. rewrite rr_loop_spec. apply rr_spec_length. Qed.

(** [calculateStats] throws exactly when it has at least two beat indices
    and more RR intervals than one call takes arguments. *)
Lemma calculateStats_run_value (limit : nat) (beats : list nat)
    (time : list JS.number) :
  calculateStats_run limit beats time
  = if (length beats <? 2)%nat || (length beats - 1 <=? limit)%nat
    then Returns (calculateStats beats time)
    else Throws_RangeError.
Proof.
  unfold calculateStats_run, calculateStats, Math_min_spread, Math_max_spread.
  destruct (length beats <? 2)%nat; [reflexivity|].
  rewrite rr_loop_length. simpl orb.
  now destruct (length beats - 1 <=? limit)%nat.
Qed.

(** A call of [analyzeData] that reaches its last callback reports the
    analysis studied above. *)
Lemma analyzeData_run_reported (limit : nat) (rawTime rawVoltage : list JS.number)
    (rawSegments : option (list slot)) (a : Analysis) :
  analyzeData_run limit rawTime rawVoltage rawSegments = Reported a ->
  a = analyzeData rawTime rawVoltage rawSegments.
Proof.
  unfold analyzeData_run, analyzeData.
  rewrite detectRPeaks_run_value.
  destruct (_ || _ || _); [|discriminate].
  rewrite calculateStats_run_value.
  destruct (_ || _); [|discriminate].
  congruence.
Qed.

(** C9.  For a signal with fewer than 3 samples, or a completely flat one,
    the detector returns no beat as long as the signal fits in one call's
    arguments, or is stopped by the guard; but
    [Math.max(...centered.map(Math.abs))] takes one argument per sample, and
    for a longer signal, flat or not, the detector throws a [RangeError]
    instead of returning. *)
Theorem detectRPeaks_run_short_or_flat (limit : nat)
    (time voltage : list JS.number) :
  (length time < 3)%nat \/ (length voltage < 3)%nat \/ flat voltage = true ->
  (length time = 0%nat \/ (length voltage <= limit)%nat ->
   detectRPeaks_run limit time voltage = Returns [])
  /\ ((0 < length time)%nat -> (limit < length voltage)%nat ->
      detectRPeaks_run limit time voltage = Throws_RangeError).
Proof.
  intros Hquiet. rewrite detectRPeaks_run_value. split.
  - intros Hfits. rewrite (quiet_signal_no_beats _ _ Hquiet).
    destruct Hfits as [Ht | Hv].
    + now rewrite Ht.
    + apply Nat.leb_le in Hv. rewrite Hv. now rewrite !orb_true_r.
  - intros Ht Hv.
    assert (E1 : (length time =? 0)%nat = false) by (apply Nat.eqb_neq; lia).
    assert (E2 : (length voltage =? 0)%nat = false) by (apply Nat.eqb_neq; lia).
    assert (E3 : (length voltage <=? limit)%nat = false)
      by (apply Nat.leb_gt; lia).
    now rewrite E1, E2, E3.
Qed.

Lemma long_flat_facts :
  flat (zero_voltage long_flat_samples) = true
  /\ (0 <? length (sampled_time 250 long_flat_samples))%nat = true
  /\ (engine_limit <? length (zero_voltage long_flat_samples))%nat = true.
Proof. repeat split; vm_compute; reflexivity. Qed.

Lemma detectRPeaks_run_short_or_flat_witness :
  detectRPeaks_run engine_limit (sampled_time 250 long_flat_samples)
    (zero_voltage long_flat_samples) = Throws_RangeError.
Proof.
  destruct long_flat_facts as (Hflat & Ht & Hv).
  apply (detectRPeaks_run_short_or_flat engine_limit
           (sampled_time 250 long_flat_samples)
           (zero_voltage long_flat_samples)).
  - right. right. exact Hflat.
  - apply Nat.ltb_lt. exact Ht.
  - apply Nat.ltb_lt. exact Hv.
Defined.

(** X12. A signal with fewer than 3 samples, or a flat one, that fits in one
    call's arguments (or is stopped by the detector's guard), analysed
    without labels of its own: all four callbacks are called, with no beat
    index, no timestamp, every sample labelled [baseline], and the
    placeholder statistics.  A non-empty recording with more samples than
    one call takes arguments makes [detectRPeaks] throw before any callback
    is called. *)
Theorem analyzeData_run_quiet_signal (limit : nat)
    (rawTime rawVoltage : list JS.number) :
  (length rawTime < 3)%nat \/ (length rawVoltage < 3)%nat
  \/ flat rawVoltage = true ->
  (length rawTime = 0%nat \/ (length rawVoltage <= limit)%nat ->
   analyzeData_run limit rawTime rawVoltage None
   = Reported
       {| an_indices := [];
          an_timestamps := [];
          an_data := {| time := rawTime; voltage := rawVoltage;
                        segments := Some (replicate (length rawTime)
                                            (Some Seg_baseline)) |};
          an_stats := degenerate_stats rawTime |})
  /\ ((0 < length rawTime)%nat -> (limit < length rawVoltage)%nat ->
      analyzeData_run limit rawTime rawVoltage None = Threw_before_reporting).
Proof.
  intros Hquiet. unfold analyzeData_run. rewrite detectRPeaks_run_value. split.
  - intros Hfits. rewrite (quiet_signal_no_beats _ _ Hquiet).
    assert (G : (length rawTime =? 0)%nat || (length rawVoltage =? 0)%nat
                || (length rawVoltage <=? limit)%nat = true).
    { destruct Hfits as [Ht | Hv].
      - now rewrite Ht.
      - apply Nat.leb_le in Hv. rewrite Hv. now rewrite !orb_true_r. }
    rewrite G. rewrite calculateStats_run_value. simpl.
    do 2 f_equal. unfold calculateStats, degenerate_stats. simpl.
    pose proof (duration_eq [] rawTime) as D.
    unfold calculateStats in D. simpl in D. now rewrite D.
  - intros Ht Hv.
    assert (E1 : (length rawTime =? 0)%nat = false) by (apply Nat.eqb_neq; lia).
    assert (E2 : (length rawVoltage =? 0)%nat = false)
      by (apply Nat.eqb_neq; lia).
    assert (E3 : (length rawVoltage <=? limit)%nat = false)
      by (apply Nat.leb_gt; lia).
    now rewrite E1, E2, E3.
Qed.

Lemma analyzeData_run_quiet_signal_witness :
  analyzeData_run engine_limit (sampled_time 250 1000) (zero_voltage 1000) None
  = Reported
      {| an_indices := [];
         an_timestamps := [];
         an_data := {| time := sampled_time 250 1000;
                       voltage := zero_voltage 1000;
                       segments := Some (replicate
                                           (length (sampled_time 250 1000))
                                           (Some Seg_baseline)) |};
         an_stats := degenerate_stats (sampled_time 250 1000) |}.
Proof.
  apply (analyzeData_run_quiet_signal engine_limit (sampled_time 250 1000)
           (zero_voltage 1000)).
  - right. right. vm_compute. reflexivity.
  - right. apply Nat.leb_le. vm_compute. reflexivity.
Defined.
